(** * truth-trick: the expression engine of [main.js]

    A shallow embedding of the boolean-expression pipeline of [main.js]
    (tokenize, convertToPostfix, evaluate, getInputs, getOutputs, gray,
    createKarnaughMap, createTruthTable, createCircuit, newExpression) and
    the properties stated about it.

    Conventions.
    - A JavaScript string is the list of its UTF-16 code units ([str]).
    - A JavaScript array is a list in index order; [push] appends at the
      end and [pop] removes the last element.
    - Arrays that the program mutates after creating them live in a
      [store] and are passed by reference, as in the source. *)

From Stdlib Require Import ZArith NArith Lia List Bool Ascii String.
From stdpp Require Import base list.
Import ListNotations.

#[local] Open Scope N_scope.

(** ** Strings *)

Definition str := list N.

(** A literal of ASCII characters. *)
Definition lit (s : string) : str := map N_of_ascii (list_ascii_of_string s).
Arguments lit s%_string.

(** The operator symbols of the source, by code point. *)
Definition c_and : N := 8743.    (* U+2227 LOGICAL AND *)
Definition c_or : N := 8744.     (* U+2228 LOGICAL OR *)
Definition c_not : N := 172.     (* U+00AC NOT SIGN *)
Definition c_veebar : N := 8891. (* U+22BB XOR, the synonym *)
Definition c_xor : N := 8853.    (* U+2295 CIRCLED PLUS *)
Definition c_imply : N := 8594.  (* U+2192 RIGHTWARDS ARROW *)
Definition c_xnor : N := 8801.   (* U+2261 IDENTICAL TO *)
Definition c_odot : N := 8857.   (* U+2299 CIRCLED DOT OPERATOR *)

Definition str_eqb (a b : str) : bool := bool_decide (a = b).

(** ** Character classes of the regular expressions *)

Definition isUpper (c : N) : bool := (65 <=? c) && (c <=? 90).
Definition isLower (c : N) : bool := (97 <=? c) && (c <=? 122).

(** [[A-Z]] under the [i] flag. *)
Definition isLetter (c : N) : bool := isUpper c || isLower c.

(** [[01]]. *)
Definition isBit (c : N) : bool := (c =? 48) || (c =? 49).

(** [\w] is [[A-Za-z0-9_]]; [\W] is its complement. *)
Definition isWord (c : N) : bool :=
  isLetter c || ((48 <=? c) && (c <=? 57)) || (c =? 95).

(** [\s]: the white space and line terminator code units. *)
Definition isSpace (c : N) : bool :=
  existsb (N.eqb c) [9; 10; 11; 12; 13; 32; 160; 5760; 8232; 8233; 8239; 8287; 12288; 65279]
  || ((8192 <=? c) && (c <=? 8202)).

(** Case folding of the [i] flag. Without the [u] flag a code unit is
    compared through its upper case, and a code unit above 127 never folds
    to one below 128; the patterns of this program hold ASCII characters
    and two symbols that have no case, so only ASCII letters fold. *)
Definition canon (c : N) : N := if isLower c then c - 32 else c.

Fixpoint takeWhile (p : N -> bool) (s : str) : str :=
  match s with
  | c :: s' => if p c then c :: takeWhile p s' else []
  | [] => []
  end.

Fixpoint dropWhile (p : N -> bool) (s : str) : str :=
  match s with
  | c :: s' => if p c then dropWhile p s' else s
  | [] => []
  end.

(** ** Property tables

    An object literal is the list of its own properties in insertion
    order; [get] is the lookup of an own property. *)

Fixpoint get {A : Type} (tbl : list (str * A)) (k : str) : option A :=
  match tbl with
  | [] => None
  | (k', v) :: tbl' => if str_eqb k k' then Some v else get tbl' k
  end.

(** Property names every object inherits from [Object.prototype]. The
    [in] operator and a property read find them too. *)
Definition objectPrototype : list str :=
  [ lit "constructor"; lit "hasOwnProperty"; lit "isPrototypeOf";
    lit "propertyIsEnumerable"; lit "toLocaleString"; lit "toString";
    lit "valueOf"; lit "__proto__"; lit "__defineGetter__";
    lit "__defineSetter__"; lit "__lookupGetter__"; lit "__lookupSetter__" ].

Definition inherited (k : str) : bool := existsb (str_eqb k) objectPrototype.

(** ** tokenize *)

Definition otherSymbols : list (str * str) :=
  [ (lit ".", [c_and]);
    (lit "^", [c_and]);
    (lit "&", [c_and]);
    (lit "AND", [c_and]);
    (lit "+", [c_or]);
    (lit "|", [c_or]);
    (lit "OR", [c_or]);
    (lit "!", [c_not]);
    (lit "NOT", [c_or]);
    ([c_veebar], [c_xor]);
    (lit "XOR", [c_or]);
    (lit ">", [c_imply]);
    (lit "=", [c_xnor]);
    ([c_odot], [c_xnor]);
    (lit "XNOR", [c_xnor]) ].

(** [squeezeRegex], replaced by the empty string: white space is removed. *)
Definition squeeze (exp : str) : str := List.filter (fun c => negb (isSpace c)) exp.

(** One alternative of [replaceRegex] at the start of [s]: the key,
    compared without case. Returns the text matched. *)
Fixpoint matchKey (key s : str) : option str :=
  match key, s with
  | [], _ => Some []
  | p :: key', c :: s' =>
      if canon p =? canon c
      then match matchKey key' s' with Some m => Some (c :: m) | None => None end
      else None
  | _ :: _, [] => None
  end.

(** [replaceRegex] at the start of [s]: the keys of [otherSymbols], joined
    by [|], tried in insertion order. *)
Fixpoint matchKeys (keys : list str) (s : str) : option str :=
  match keys with
  | [] => None
  | key :: keys' =>
      match matchKey key s with
      | Some m => Some m
      | None => matchKeys keys' s
      end
  end.

(** The callback [key => otherSymbols[key]]: the text matched is looked
    up as it stands, and a missing property gives [undefined], which
    [replace] inserts as the text "undefined". *)
Definition replacement (key : str) : str :=
  match get otherSymbols key with
  | Some sym => sym
  | None => lit "undefined"
  end.

(** [s.replace(replaceRegex, ...)] with the [g] flag. [skip] counts the
    code units still covered by the last match. *)
Fixpoint replaceAll (skip : nat) (s : str) : str :=
  match s with
  | [] => []
  | c :: s' =>
      match skip with
      | S k => replaceAll k s'
      | O =>
          match matchKeys (map fst otherSymbols) (c :: s') with
          | Some m => replacement m ++ replaceAll (length m - 1) s'
          | None => c :: replaceAll 0 s'
          end
      end
  end.

(** The two [replace] calls of [tokenize]. *)
Definition normalize (exp : str) : str := replaceAll 0 (squeeze exp).

(** [s.match(tokenRegex)] with the [g] flag, [tokenRegex] being
    [[A-Z]+|[01]+|\W] without case: at each position a greedy run of
    letters, else a greedy run of the digits 0 and 1, else one non-word
    code unit; a code unit that matches none is passed over. *)
Fixpoint matchAll (skip : nat) (s : str) : list str :=
  match s with
  | [] => []
  | c :: s' =>
      match skip with
      | S k => matchAll k s'
      | O =>
          if isLetter c then
            let m := takeWhile isLetter (c :: s') in m :: matchAll (length m - 1) s'
          else if isBit c then
            let m := takeWhile isBit (c :: s') in m :: matchAll (length m - 1) s'
          else if negb (isWord c) then [c] :: matchAll 0 s'
          else matchAll 0 s'
      end
  end.

(** [match] returns [null] when nothing matched: [None]. *)
Definition tokenize (exp : str) : option (list str) :=
  match matchAll 0 (normalize exp) with
  | [] => None
  | tokens => Some tokens
  end.

(** ** Values

    What an array element or the result of [evaluate] can be: [undefined],
    a boolean or a string. *)

Inductive value : Type :=
| VUndef
| VBool (b : bool)
| VStr (s : str).

#[global] Instance value_eq_dec : EqDecision value.
Proof. solve_decision. Defined.

(** Conversion to a string, which is also the conversion to a property
    key. *)
Definition ToString (v : value) : str :=
  match v with
  | VUndef => lit "undefined"
  | VBool true => lit "true"
  | VBool false => lit "false"
  | VStr s => s
  end.

(** Conversion to a boolean. *)
Definition truthy (v : value) : bool :=
  match v with
  | VUndef => false
  | VBool b => b
  | VStr [] => false
  | VStr (_ :: _) => true
  end.

Definition js_not (a : value) : value := VBool (negb (truthy a)).
Definition js_and (a b : value) : value := if truthy a then b else a.
Definition js_or (a b : value) : value := if truthy a then a else b.

(** [a === b]. *)
Definition strict_eq (a b : value) : bool := bool_decide (a = b).

(** [arr[i]]: [undefined] outside the array. *)
Definition index (arr : list value) (i : Z) : value :=
  if (i <? 0)%Z then VUndef else default VUndef (arr !! Z.to_nat i).

(** ** Results and the store *)

Inductive error : Type :=
| ReferenceError      (* an identifier that is not declared was read *)
| TypeError           (* a property of [null] was read *)
| Inherited (k : str) (* a property inherited from [Object.prototype] was
                         found under the name [k]; what the program does
                         with it is outside this model *)
| OutOfFuel
| Dangling.           (* a reference that was never allocated *)

Inductive outcome (A : Type) : Type :=
| Ret (a : A)
| Err (e : error).
Arguments Ret {A} a.
Arguments Err {A} e.

Definition obind {A B : Type} (m : outcome A) (k : A -> outcome B) : outcome B :=
  match m with
  | Ret a => k a
  | Err e => Err e
  end.

(** The mutable arrays, by reference. *)
Abbreviation ref := nat.
Abbreviation store := (list (list value)).

Definition M (A : Type) : Type := store -> outcome (A * store).

Definition ret {A : Type} (a : A) : M A := fun h => Ret (a, h).

Definition bind {A B : Type} (m : M A) (k : A -> M B) : M B :=
  fun h => match m h with
           | Ret (a, h') => k a h'
           | Err e => Err e
           end.

Definition throw {A : Type} (e : error) : M A := fun _ => Err e.

Definition lift {A : Type} (m : outcome A) : M A :=
  fun h => match m with
           | Ret a => Ret (a, h)
           | Err e => Err e
           end.

Notation "'do' x <- m ; k" := (bind m (fun x => k))
  (at level 10, x name, m at level 100, k at level 200).

(** A new array. *)
Definition new (a : list value) : M ref :=
  fun h => Ret (length h, h ++ [a]).

Definition read (r : ref) : M (list value) :=
  fun h => match h !! r with
           | Some a => Ret (a, h)
           | None => Err Dangling
           end.

(** [arr.push(v)]. *)
Definition push (r : ref) (v : value) : M unit :=
  fun h => match h !! r with
           | Some a => Ret (tt, <[r := a ++ [v]]> h)
           | None => Err Dangling
           end.

(** [arr.pop()]: removes and returns the last element; on an empty array
    it returns [undefined] and the array stays empty. *)
Definition pop (r : ref) : M value :=
  fun h => match h !! r with
           | Some a => Ret (List.last a VUndef, <[r := removelast a]> h)
           | None => Err Dangling
           end.

(** ** convertToPostfix *)

(** [alphaNum.test(token)], [alphaNum] being [[A-Z01]] without case. *)
Definition alphaNum (token : str) : bool :=
  existsb (fun c => isLetter c || isBit c) token.

Definition precedence : list (str * Z) :=
  [ (lit "undefined", 7%Z);
    ([c_not], 6%Z);
    (lit "(", 5%Z);
    ([c_imply], 4%Z);
    ([c_xor], 3%Z);
    ([c_xnor], 2%Z);
    ([c_and], 1%Z);
    ([c_or], 0%Z) ].

(** [let top = stack.length.length - 1]: the length of an array is a
    number, a number has no property [length], and [undefined - 1] is
    [NaN]. As a property key [NaN] is the string "NaN". *)
Definition topKey : str := lit "NaN".

(** [a <= b] on what [precedence[...]] returns: [undefined] converts to
    [NaN], and a comparison with [NaN] is false. *)
Definition le_js (a b : option Z) : bool :=
  match a, b with
  | Some x, Some y => (x <=? y)%Z
  | _, _ => false
  end.

(** The loop of the [')'] branch, on the stack read from its top:
    [top = stack.pop()] until [top] is ['('] or [undefined]. Returns the
    output queue and what is left of the stack (top first). *)
Fixpoint popToParen (postfix : list str) (rstack : list str) : list str * list str :=
  match rstack with
  | [] => (postfix, [])
  | top :: rest =>
      if str_eqb top (lit "(") then (postfix, rest)
      else popToParen (postfix ++ [top]) rest
  end.

(** The body of [infix.forEach]. The state is [(postfix, stack)]. In the
    last branch the loop body starts by calling [pop], which is not
    declared anywhere: entering the loop throws. *)
Definition convertStep (st : list str * list str) (token : str)
  : outcome (list str * list str) :=
  let '(postfix, stack) := st in
  if alphaNum token then Ret (postfix ++ [token], stack)
  else if str_eqb token (lit "(") then Ret (postfix, stack ++ [token])
  else if str_eqb token (lit ")") then
    let '(postfix', rest) := popToParen postfix (rev stack) in
    Ret (postfix', rev rest)
  else if (length stack =? 0)%nat then Ret (postfix, stack ++ [token])
  else if le_js (get precedence topKey) (get precedence token) then Err ReferenceError
  else Ret (postfix, stack ++ [token]).

Fixpoint convertLoop (st : list str * list str) (infix : list str)
  : outcome (list str * list str) :=
  match infix with
  | [] => Ret st
  | token :: infix' => obind (convertStep st token) (fun st' => convertLoop st' infix')
  end.

Definition convertToPostfix (infix : list str) : outcome (list str) :=
  obind (convertLoop ([], []) infix)
        (fun '(postfix, stack) => Ret (postfix ++ rev stack)).

(** ** evaluate *)

Definition operations1 : list (str * (value -> value)) :=
  [ ([c_not], fun a => js_not a) ].

Definition operations2 : list (str * (value -> value -> value)) :=
  [ ([c_and], fun a b => js_and a b);
    ([c_or], fun a b => js_or a b);
    ([c_imply], fun a b => js_or (js_not a) b);
    ([c_xor], fun a b => if truthy a then js_not b else b);
    ([c_xnor], fun a b => VBool (strict_eq a b)) ].

Definition conversion : list (str * value) :=
  [ (lit "0", VBool false);
    (lit "1", VBool true);
    (lit "false", VStr (lit "0"));
    (lit "true", VStr (lit "1")) ].

(** [evaluate(exp)]. The arguments of a call are evaluated from left to
    right, so the operand popped first is the first argument. A name
    inherited from [Object.prototype] satisfies the first [in] test. *)
Fixpoint evaluate_fuel (n : nat) (exp : ref) : M value :=
  match n with
  | O => throw OutOfFuel
  | S n =>
      do last <- pop exp;
      let k := ToString last in
      if inherited k then throw (Inherited k)
      else match get operations1 k with
      | Some f => do a <- evaluate_fuel n exp; ret (f a)
      | None =>
      match get operations2 k with
      | Some f => do a <- evaluate_fuel n exp; do b <- evaluate_fuel n exp; ret (f a b)
      | None =>
      match get conversion k with
      | Some v => ret v
      | None => ret last
      end end end
  end.

(** Each call pops once and a call on an empty array returns at once, so
    the calls nest at most one deeper than the array has elements. *)
Definition evaluate (exp : ref) : M value :=
  do a <- read exp; evaluate_fuel (S (length a)) exp.

(** ** Numbers as text *)

Fixpoint binary (p : positive) : str :=
  match p with
  | xH => [49]
  | xO p' => binary p' ++ [48]
  | xI p' => binary p' ++ [49]
  end.

(** [n.toString(2)] of an integer. *)
Definition toString2 (z : Z) : str :=
  match z with
  | Z0 => [48]
  | Zpos p => binary p
  | Zneg p => 45 :: binary p
  end.

(** [s.padStart(targetLength, '0')]. *)
Definition padStart (targetLength : nat) (s : str) : str :=
  repeat 48 (targetLength - length s) ++ s.

Definition digitsValue (digits : str) : Z :=
  fold_left (fun acc c => (2 * acc + Z.of_N (c - 48))%Z) digits 0%Z.

(** [parseInt(s, 2)]: leading white space, an optional sign, then the
    longest run of binary digits; [NaN] ([None]) when there is no digit.
    The value is exact up to 53 digits, beyond which JavaScript rounds. *)
Definition parseInt2 (s : str) : option Z :=
  let s := dropWhile isSpace s in
  let '(sign, s) :=
    match s with
    | 45 :: s' => ((-1)%Z, s')
    | 43 :: s' => (1%Z, s')
    | _ => (1%Z, s)
    end in
  match takeWhile isBit s with
  | [] => None
  | digits => Some (sign * digitsValue digits)%Z
  end.

(** ** getInputs *)

Definition getInputs (len : nat) : list (list value) :=
  map (fun i => map (fun c => VStr [c]) (padStart len (toString2 (Z.of_nat i))))
      (seq 0 (2 ^ len)).

(** ** getOutputs *)

(** [strRegex.test(token)], [strRegex] being [[A-Z]+] without case; the
    argument is converted to a string first. *)
Definition strRegex (token : str) : bool := existsb isLetter token.

(** The callback of [replacedExp.map]; [n] is the counter shared by the
    calls for one [input]. *)
Fixpoint substitute (input : list value) (n : Z) (exp : list value) : list value :=
  match exp with
  | [] => []
  | token :: exp' =>
      if strRegex (ToString token)
      then let n := (n + 1)%Z in index input n :: substitute input n exp'
      else token :: substitute input n exp'
  end.

(** [conversion[v]]. *)
Definition convert (v : value) : outcome value :=
  let k := ToString v in
  if inherited k then Err (Inherited k)
  else match get conversion k with
       | Some c => Ret c
       | None => Ret VUndef
       end.

(** [map] builds a new array for every [input]. *)
Fixpoint getOutputs (exp : ref) (inputs : list (list value)) : M (list value) :=
  match inputs with
  | [] => ret []
  | input :: inputs' =>
      do tokens <- read exp;
      do replacedExp <- new (substitute input (-1) tokens);
      do v <- evaluate replacedExp;
      do out <- lift (convert v);
      do outputs <- getOutputs exp inputs';
      ret (out :: outputs)
  end.

(** ** gray *)

(** The bitwise operators work on 32-bit signed integers. *)
Definition ToInt32 (z : Z) : Z :=
  let m := (z mod 2 ^ 32)%Z in
  if (m <? 2 ^ 31)%Z then m else (m - 2 ^ 32)%Z.

Definition gray (i : Z) : Z :=
  ToInt32 (Z.lxor (ToInt32 i) (Z.shiftr (ToInt32 i) 1)).

(** ** Tables of the page

    A table is the list of its rows, a row the list of its cells; a cell
    has a text and may carry the class [highlighted]. *)

Record cell : Type := { text : str; highlighted : bool }.

Definition table := list (list cell).

Definition textCell (s : str) : cell := {| text := s; highlighted := false |}.

(** A cell showing [digit], highlighted when [digit === '1']. *)
Definition digitCell (digit : value) : cell :=
  {| text := ToString digit; highlighted := strict_eq digit (VStr (lit "1")) |}.

(** [arr.join('')]: [undefined] contributes nothing. *)
Definition join (arr : list value) : str :=
  concat (map (fun v => match v with VUndef => [] | _ => ToString v end) arr).

(** ** createKarnaughMap *)

(** [gray(i).toString(2).padStart(size, '0')]. *)
Definition grayLabel (size : nat) (i : nat) : str :=
  padStart size (toString2 (gray (Z.of_nat i))).

(** [outputs[parseInt(index, 2)]]. *)
Definition karnaughDigit (outputs : list value) (idx : str) : value :=
  match parseInt2 idx with
  | Some z => index outputs z
  | None => VUndef
  end.

Definition karnaughRows (outputs variables : list value) : table :=
  let vertical := (length variables / 2)%nat in
  let horizontal := (length variables - vertical)%nat in
  let key := textCell (join (take vertical variables) ++ [92] ++ join (drop vertical variables)) in
  let header := key :: map (fun i => textCell (grayLabel horizontal i)) (seq 0 (2 ^ horizontal)) in
  header ::
  map (fun i =>
         textCell (grayLabel vertical i) ::
         map (fun j => digitCell (karnaughDigit outputs (grayLabel vertical i ++ grayLabel horizontal j)))
             (seq 0 (2 ^ horizontal)))
      (seq 0 (2 ^ vertical)).

(** Returns the rows put into the table [karnaugh-map]. *)
Definition createKarnaughMap (outputs : list value) (variables : ref) : M table :=
  do vars <- read variables;
  ret (karnaughRows outputs vars).

(** ** createTruthTable *)

Definition truthRows (inputs : list (list value)) (outputs variables : list value) : table :=
  map (fun variable => textCell (ToString variable)) variables ::
  imap (fun i input =>
          map (fun digit => textCell (ToString digit)) input
          ++ [digitCell (index outputs (Z.of_nat i))])
       inputs.

(** Returns the rows put into the table [truth-table]. *)
Definition createTruthTable (inputs : list (list value)) (outputs : list value)
    (variables : ref) : M table :=
  do _ <- push variables (VStr (lit "Q"));
  do vars <- read variables;
  ret (truthRows inputs outputs vars).

(** ** createCircuit *)

Definition names : list (str * str) :=
  [ ([c_not], lit "NOT");
    ([c_and], lit "AND");
    ([c_or], lit "OR");
    ([c_imply], lit "IMPLY");
    ([c_xor], lit "XOR");
    ([c_xnor], lit "XNOR") ].

(** [k in obj]: an own or an inherited property. *)
Definition isIn {A : Type} (k : str) (obj : list (str * A)) : bool :=
  inherited k || bool_decide (is_Some (get obj k)).

(** The calls made on the graph [g]. [gate] is [names[last]] when that is
    an own property of [names]. *)
Inductive graphCall : Type :=
| SetGate (node : str) (direction : Z) (gate : option str)
| SetLeaf (node : str) (label : value) (direction : Z)
| SetEdge (parentNode node : str).

Fixpoint createCircuit_fuel (n : nat) (exp : ref) (direction : Z)
    (parentNode : option str) (node : str) : M (list graphCall) :=
  match n with
  | O => throw OutOfFuel
  | S n =>
      do last <- pop exp;
      let k := ToString last in
      do calls <-
        (if isIn k operations1 || isIn k operations2 then
           do children <-
             (if isIn k operations1 then
                createCircuit_fuel n exp 0 (Some node) (node ++ lit "0")
              else
                do c0 <- createCircuit_fuel n exp (-1) (Some node) (node ++ lit "0");
                do c1 <- createCircuit_fuel n exp 1 (Some node) (node ++ lit "1");
                ret (c0 ++ c1));
           ret (SetGate node direction (get names k) :: children)
         else ret [SetLeaf node last direction]);
      ret (calls ++ match parentNode with
                    | Some p => [SetEdge p node]
                    | None => []
                    end)
  end.

Definition createCircuit (exp : ref) : M (list graphCall) :=
  do a <- read exp;
  createCircuit_fuel (S (length a)) exp 0 None (lit "0").

(** ** newExpression *)

(** [[...new Set(arr)]]: the distinct elements in order of first
    occurrence. *)
Fixpoint distinct (seen arr : list str) : list str :=
  match arr with
  | [] => []
  | x :: arr' =>
      if existsb (str_eqb x) seen then distinct seen arr'
      else x :: distinct (x :: seen) arr'
  end.

Record artifacts : Type :=
  { outputsOf : list value;
    circuitOf : list graphCall;
    karnaughOf : table;
    truthOf : table }.

(** The pipeline up to the tables; rendering the graph and sizing the
    drawing come after and touch neither table. [tokens.filter] on [null]
    (nothing to tokenize) throws. *)
Definition newExpression (value : str) : M artifacts :=
  match tokenize value with
  | None => throw TypeError
  | Some tokens =>
      do variables <- new (map VStr (distinct [] (List.filter strRegex tokens)));
      do postfix <- lift (convertToPostfix tokens);
      do exp <- new (map VStr postfix);
      do vars <- read variables;
      let inputs := getInputs (length vars) in
      do outputs <- getOutputs exp inputs;
      do g <- createCircuit exp;
      do km <- createKarnaughMap outputs variables;
      do tt <- createTruthTable inputs outputs variables;
      ret {| outputsOf := outputs; circuitOf := g; karnaughOf := km; truthOf := tt |}
  end.

(** * Notions used in the properties *)

(** The token of a bit. *)
Definition bit (b : bool) : value := VStr (if b then lit "1" else lit "0").

(** Values whose property key is no name of [Object.prototype]. *)
Definition plain (v : value) : Prop := inherited (ToString v) = false.

(** [s] does not go on a run of [p] that [pre] ends with. *)
Definition cut (p : N -> bool) (pre s : str) : Prop :=
  match s with
  | c :: _ => p c = true -> p (List.last pre 0) = false
  | [] => True
  end.

(** What [evaluate] leaves of the array made for [input]. *)
Definition leftover (tokens input left : list value) : Prop :=
  exists consumed,
    substitute input (-1) tokens = left ++ consumed
    /\ (tokens <> [] -> consumed <> []).

(** The variables of a token sequence, as [newExpression] collects
    them. *)
Definition variablesOf (tokens : list str) : list value :=
  map VStr (distinct [] (List.filter strRegex tokens)).

#[local] Open Scope Z_scope.

(** The number of positions below [k] where [a] and [b] have different
    bits. *)
Definition bitDifferences (k : nat) (a b : Z) : nat :=
  length (List.filter (fun m => xorb (Z.testbit a (Z.of_nat m)) (Z.testbit b (Z.of_nat m)))
                      (seq 0 k)).

(** [gray] without the conversion to 32 bits. *)
Definition reflected (i : Z) : Z := Z.lxor i (Z.shiftr i 1).

(** Where [reflected i] and [reflected (i + 1)] differ. *)
Definition flips (i m : Z) : bool :=
  xorb (Z.testbit (reflected i) m) (Z.testbit (reflected (i + 1)) m).

Definition oneChange (i : Z) : Prop :=
  exists j, 0 <= j /\ 2 ^ j <= i + 1 /\ forall m, 0 <= m -> flips i m = (m =? j).

(** The inverse: [a], [a >> 1], ..., [a >> (n - 1)] combined. *)
Fixpoint unreflect (n : nat) (a : Z) : Z :=
  match n with
  | O => 0
  | S n' => Z.lxor a (Z.shiftr (unreflect n' a) 1)
  end.

#[local] Close Scope Z_scope.

(** ** Notions for the further properties *)

(** What one match of [tokenRegex] can be: a run of letters, a run of the
    digits 0 and 1, or one code unit that is no word character. *)
Definition tokenShape (t : str) : bool :=
  match t with
  | [] => false
  | c :: t' =>
      forallb isLetter t || forallb isBit t
      || (negb (isWord c) && match t' with [] => true | _ => false end)
  end.

(** The code units [tokenRegex] can match. *)
Definition tokenizable (c : N) : bool := isLetter c || isBit c || negb (isWord c).

(** No alternative of [replaceRegex] matches at any position of [s]. *)
Fixpoint settled (s : str) : Prop :=
  match s with
  | [] => True
  | _ :: s' => matchKeys (map fst otherSymbols) s = None /\ settled s'
  end.

(** The code units, case folded, that the texts put in by [replace]
    start with: the six operator symbols and the letter of "undefined". *)
Definition startsReplacement (c : N) : bool :=
  existsb (N.eqb c) [c_and; c_or; c_not; c_xor; c_imply; c_xnor; 85].

(** What [getOutputs] finds in an assignment made by [getInputs], and what
    it leaves of the postfix sequence: [undefined] or a text without
    letter. *)
Definition letterless (v : value) : Prop :=
  v = VUndef \/ exists s, v = VStr s /\ strRegex s = false.

(** What [evaluate] makes of such elements: a boolean, [undefined], or a
    text without letter that [conversion] does not know. *)
Definition evaluated (v : value) : Prop :=
  (exists b, v = VBool b) \/ v = VUndef
  \/ exists s, v = VStr s /\ strRegex s = false /\ get conversion s = None.

(** The three things a cell of the output column can hold. *)
Definition outputDigit (v : value) : bool :=
  bool_decide (v = VStr (lit "0")) || bool_decide (v = VStr (lit "1")) || bool_decide (v = VUndef).

(** A token the converter keeps on its stack: no operand, and not [')']. *)
Definition stacked (t : str) : Prop := alphaNum t = false /\ t <> lit ")".

Definition isParen (t : str) : bool := str_eqb t (lit "(") || str_eqb t (lit ")").

(** The index of the first occurrence of [t] in [vars]. *)
Fixpoint position (t : str) (vars : list str) : Z :=
  match vars with
  | [] => 0%Z
  | v :: vars' => if str_eqb t v then 0%Z else (1 + position t vars')%Z
  end.

(** Expressions, to speak of the postfix sequences that are well formed. *)
Inductive binop : Type := OpAnd | OpOr | OpImply | OpXor | OpXnor.

Inductive expr : Type :=
| Leaf (t : str)
| Neg (e : expr)
| Bin (o : binop) (l r : expr).

Definition symbol (o : binop) : N :=
  match o with
  | OpAnd => c_and
  | OpOr => c_or
  | OpImply => c_imply
  | OpXor => c_xor
  | OpXnor => c_xnor
  end.

(** The postfix sequence of an expression: left operand, right operand,
    operator. *)
Fixpoint postfixOf (e : expr) : list value :=
  match e with
  | Leaf t => [VStr t]
  | Neg e' => postfixOf e' ++ [VStr [c_not]]
  | Bin o l r => postfixOf l ++ postfixOf r ++ [VStr [symbol o]]
  end.

(** The truth table of an operator, left operand first. *)
Definition truth (o : binop) (a b : bool) : bool :=
  match o with
  | OpAnd => a && b
  | OpOr => a || b
  | OpImply => implb a b
  | OpXor => xorb a b
  | OpXnor => eqb a b
  end.

(** The truth value of an expression over the constants 0 and 1. *)
Fixpoint denote (e : expr) : bool :=
  match e with
  | Leaf t => str_eqb t (lit "1")
  | Neg e' => negb (denote e')
  | Bin o l r => truth o (denote l) (denote r)
  end.

(** The same with the two operands of every operator exchanged. *)
Fixpoint denoteExchanged (e : expr) : bool :=
  match e with
  | Leaf t => str_eqb t (lit "1")
  | Neg e' => negb (denoteExchanged e')
  | Bin o l r => truth o (denoteExchanged r) (denoteExchanged l)
  end.

(** All leaves are the constants 0 and 1. *)
Fixpoint constants (e : expr) : bool :=
  match e with
  | Leaf t => str_eqb t (lit "0") || str_eqb t (lit "1")
  | Neg e' => constants e'
  | Bin _ l r => constants l && constants r
  end.

Fixpoint withoutImply (e : expr) : bool :=
  match e with
  | Leaf _ => true
  | Neg e' => withoutImply e'
  | Bin o l r =>
      match o with OpImply => false | _ => true end && withoutImply l && withoutImply r
  end.


Definition isNodeCall (c : graphCall) : bool :=
  match c with
  | SetEdge _ _ => false
  | _ => true
  end.


Definition edgeCalls (calls : list graphCall) : nat :=
  length (List.filter (fun c => negb (isNodeCall c)) calls).




(** The ends of the edges set by the calls: parent and node. *)
Definition edgeEnds (calls : list graphCall) : list (str * str) :=
  flat_map (fun c => match c with
                     | SetEdge parentNode node => [(parentNode, node)]
                     | _ => []
                     end) calls.






(** * Properties *)

(** ** The pipeline on small expressions *)

Example tokenize_example :
  tokenize (lit "A.B + !C")
  = Some [lit "A"; [c_and]; lit "B"; [c_or]; [c_not]; lit "C"].
Proof. reflexivity. Qed.

Example convertToPostfix_parens :
  convertToPostfix [lit "A"; [c_and]; lit "("; lit "B"; [c_or]; lit "C"; lit ")"]
  = Ret [lit "A"; lit "B"; lit "C"; [c_or]; [c_and]].
Proof. reflexivity. Qed.

Example getInputs_2 :
  getInputs 2
  = [ [VStr (lit "0"); VStr (lit "0")]; [VStr (lit "0"); VStr (lit "1")];
      [VStr (lit "1"); VStr (lit "0")]; [VStr (lit "1"); VStr (lit "1")] ].
Proof. reflexivity. Qed.

Example and_outputs :
  exists r h, newExpression (lit "A AND B") [] = Ret (r, h)
    /\ outputsOf r = [VStr (lit "0"); VStr (lit "0"); VStr (lit "0"); VStr (lit "1")].
Proof. eexists _, _. split; [vm_compute; reflexivity | reflexivity]. Qed.

(** ** Basic facts *)

Lemma str_eqb_eq a b : str_eqb a b = true <-> a = b.
Proof. unfold str_eqb. apply bool_decide_eq_true. Qed.

Lemma str_eqb_refl a : str_eqb a a = true.
Proof. by apply str_eqb_eq. Qed.

(** The key of [precedence[top]] names no property. *)
Lemma precedence_top : get precedence topKey = None.
Proof. reflexivity. Qed.

(** The test of the [while] loop is false whatever the token is. *)
Lemma loop_test_false token :
  le_js (get precedence topKey) (get precedence token) = false.
Proof. by rewrite precedence_top. Qed.

(** ** C1: operand order of [evaluate] *)

(** C1. The operand that [evaluate] pops first (the right-hand one of the
    postfix sequence) is passed as the first argument of the operation:
    the sequence x y -> evaluates to y -> x. So for the expression A -> B
    the rows come out as (0,0) -> 1, (0,1) -> 0, (1,0) -> 1, (1,1) -> 1,
    the table of B -> A, not the rows 1, 1, 0, 1 of A -> B. *)
Theorem imply_rows_reversed :
  (forall x y : bool, exists h,
      (do exp <- new [bit x; bit y; VStr [c_imply]]; evaluate exp) []
      = Ret (VBool (implb y x), h))
  /\ exists r h, newExpression (lit "A>B") [] = Ret (r, h)
       /\ outputsOf r = [VStr (lit "1"); VStr (lit "0"); VStr (lit "1"); VStr (lit "1")].
Proof.
  split.
  - intros [|] [|]; eexists; vm_compute; reflexivity.
  - eexists _, _. split; [vm_compute; reflexivity | reflexivity].
Qed.

(** ** C2: substitution of the variables *)

(** C2. [getOutputs] replaces the variable occurrences by [input[0]],
    [input[1]], ... in order of occurrence, not by name: in "A XOR A" the
    second occurrence of A reads [input[1]], which is [undefined], and the
    outputs are 0 and 1 rather than 0 and 0. The same happens when the
    operator is typed with its own symbol. *)
Theorem xor_same_variable_outputs :
  tokenize (lit "A XOR A") = Some [lit "A"; [c_or]; lit "A"]
  /\ distinct [] (List.filter strRegex [lit "A"; [c_or]; lit "A"]) = [lit "A"]
  /\ substitute [VStr (lit "0")] (-1) [VStr (lit "A"); VStr (lit "A"); VStr [c_xor]]
     = [VStr (lit "0"); VUndef; VStr [c_xor]]
  /\ (exists r h, newExpression (lit "A XOR A") [] = Ret (r, h)
        /\ outputsOf r = [VStr (lit "0"); VStr (lit "1")])
  /\ (exists r h, newExpression (lit "A" ++ [c_xor] ++ lit "A") [] = Ret (r, h)
        /\ outputsOf r = [VStr (lit "0"); VStr (lit "1")]).
Proof.
  repeat split; try reflexivity.
  - eexists _, _. split; [vm_compute; reflexivity | reflexivity].
  - eexists _, _. split; [vm_compute; reflexivity | reflexivity].
Qed.

(** ** C3: operators and precedence in [convertToPostfix] *)

(** C3. An arriving operator pops nothing: A and B or C is converted to
    A B C or and, which reads A and (B or C), where the precedence table
    asks for A B and C or. The row A=0, B=0, C=1 of the table is 0, and
    (A and B) or C is 1 there. Whatever the stack holds, a token that is
    neither an operand nor a parenthesis is pushed and the output queue
    stays as it is. *)
Theorem convertToPostfix_ignores_precedence :
  convertToPostfix [lit "A"; [c_and]; lit "B"; [c_or]; lit "C"]
  = Ret [lit "A"; lit "B"; lit "C"; [c_or]; [c_and]]
  /\ (exists r h, newExpression (lit "A.B+C") [] = Ret (r, h)
        /\ outputsOf r !! 1%nat = Some (VStr (lit "0")))
  /\ forall postfix stack token,
       if alphaNum token || str_eqb token (lit "(") || str_eqb token (lit ")")
       then True
       else convertStep (postfix, stack) token = Ret (postfix, stack ++ [token]).
Proof.
  split; [reflexivity |]. split.
  - eexists _, _. split; [vm_compute; reflexivity | reflexivity].
  - intros postfix stack token. unfold convertStep. rewrite loop_test_false.
    destruct (alphaNum token), (str_eqb token (lit "(")), (str_eqb token (lit ")"));
      simpl; try done.
    by destruct (length stack =? 0)%nat.
Qed.

(** ** C4: the synonyms *)

(** C4. The words NOT and XOR are replaced by the symbol of OR (code
    point 8744), not by the symbols of negation and exclusive or; the other
    synonyms get their own symbol. A word synonym in lower case is matched
    (the pattern ignores case) but has no entry of its own, and the text
    "undefined" is put in its place. *)
Theorem normalize_not_xor_become_or :
  normalize (lit "NOT A") = [c_or] ++ lit "A"
  /\ normalize (lit "A XOR B") = lit "A" ++ [c_or] ++ lit "B"
  /\ normalize (lit "A.B+!C") = lit "A" ++ [c_and] ++ lit "B" ++ [c_or] ++ [c_not] ++ lit "C"
  /\ normalize (lit "A XNOR B") = lit "A" ++ [c_xnor] ++ lit "B"
  /\ normalize (lit "A and B") = lit "AundefinedB".
Proof. repeat split; reflexivity. Qed.

(** ** C5: unbalanced parentheses *)

Lemma convertStep_returns st token : exists st', convertStep st token = Ret st'.
Proof.
  destruct st as [postfix stack]. unfold convertStep.
  rewrite loop_test_false.
  destruct (alphaNum token); [by eexists |].
  destruct (str_eqb token (lit "(")); [by eexists |].
  destruct (str_eqb token (lit ")")).
  - destruct (popToParen postfix (rev stack)). by eexists.
  - destruct (length stack =? 0)%nat; by eexists.
Qed.

Lemma convertLoop_returns infix : forall st, exists st', convertLoop st infix = Ret st'.
Proof.
  induction infix as [|token infix IH]; intros st; simpl.
  - by eexists.
  - destruct (convertStep_returns st token) as [st' ->]. simpl. apply IH.
Qed.

(** The loop of the [')'] branch on a stack without ['(']: the whole
    stack goes to the output. *)
Lemma popToParen_no_paren rstack : forall postfix,
  ~ In (lit "(") rstack -> popToParen postfix rstack = (postfix ++ rstack, []).
Proof.
  induction rstack as [|top rest IH]; intros postfix Hno; simpl.
  - by rewrite app_nil_r.
  - destruct (str_eqb top (lit "(")) eqn:E.
    + apply str_eqb_eq in E. subst. exfalso. apply Hno. by left.
    + rewrite IH.
      * by rewrite <- app_assoc.
      * intros Hin. apply Hno. by right.
Qed.

Lemma convertToPostfix_Ret infix : exists postfix, convertToPostfix infix = Ret postfix.
Proof.
  destruct (convertLoop_returns infix ([], [])) as [[postfix stack] H].
  exists (postfix ++ rev stack). unfold convertToPostfix. by rewrite H.
Qed.

(** A [')'] without matching ['('], and a ['('] never closed: the
    conversion returns a sequence in both cases. *)
Lemma convertToPostfix_unbalanced_returns :
  convertToPostfix [lit "A"; [c_and]; lit "B"; lit ")"] = Ret [lit "A"; lit "B"; [c_and]]
  /\ convertToPostfix [lit "("; lit "A"] = Ret [lit "A"; lit "("].
Proof. split; reflexivity. Qed.

(** C5 (amended). [convertToPostfix] has no failure: every step of the
    loop returns, a [')'] read while the stack holds no ['('] moves the
    whole stack (from its top) to the output and leaves the stack empty,
    and at the end of input the stack, with every ['('] still on it, is
    appended to the output from its top. *)
Theorem convertToPostfix_never_fails :
  (forall infix, exists postfix stack,
      convertLoop ([], []) infix = Ret (postfix, stack)
      /\ convertToPostfix infix = Ret (postfix ++ rev stack))
  /\ (forall postfix stack,
        if existsb (str_eqb (lit "(")) stack
        then exists st', convertStep (postfix, stack) (lit ")") = Ret st'
        else convertStep (postfix, stack) (lit ")") = Ret (postfix ++ rev stack, [])).
Proof.
  split.
  - intros infix. destruct (convertLoop_returns infix ([], [])) as [[postfix stack] H].
    exists postfix, stack. split; [done |].
    unfold convertToPostfix. by rewrite H.
  - intros postfix stack. destruct (existsb _ stack) eqn:Hin.
    + apply convertStep_returns.
    + unfold convertStep. change (alphaNum (lit ")")) with false.
      change (str_eqb (lit ")") (lit "(")) with false.
      change (str_eqb (lit ")") (lit ")")) with true. cbv iota.
      rewrite popToParen_no_paren; [done |].
      intros Hin'. apply in_rev in Hin'.
      assert (existsb (str_eqb (lit "(")) stack = true) as E; [| congruence].
      apply existsb_exists. exists (lit "("). split; [done | apply str_eqb_refl].
Qed.

(** ** C7: runs of digits *)

(** The run "10" is one token. *)
Lemma tokenize_groups_digits :
  tokenize (lit "10") = Some [lit "10"]
  /\ tokenize (lit "A+101") = Some [lit "A"; [c_or]; lit "101"].
Proof. split; reflexivity. Qed.

Lemma takeWhile_length p s : (length (takeWhile p s) <= length s)%nat.
Proof. induction s as [|c s IH]; simpl; [lia |]. destruct (p c); simpl; lia. Qed.

(** A run of [p] as a whole, when what follows does not start with [p]. *)
Lemma takeWhile_run p run rest :
  forallb p run = true ->
  match rest with c :: _ => p c = false | [] => True end ->
  takeWhile p (run ++ rest) = run.
Proof.
  intros Hrun Hrest. induction run as [|c run IH]; simpl in *.
  - destruct rest as [|c rest]; [done |]. simpl. by rewrite Hrest.
  - apply andb_true_iff in Hrun as [-> Hrun]. by rewrite IH.
Qed.

Lemma cut_tail p c pre s : pre <> [] -> cut p (c :: pre) s -> cut p pre s.
Proof. intros Hne. unfold cut. destruct s; [done |]. by destruct pre. Qed.

Lemma takeWhile_cut p pre s :
  pre <> [] -> cut p pre s -> takeWhile p (pre ++ s) = takeWhile p pre.
Proof.
  intros Hne Hcut. induction pre as [|c pre IH]; [done |]. simpl.
  destruct (p c) eqn:Hc; [| done]. f_equal.
  destruct pre as [|c' pre].
  - simpl. destruct s as [|d s]; [done |]. simpl in *.
    destruct (p d) eqn:Hd; [| done]. specialize (Hcut eq_refl). congruence.
  - apply IH; [done |]. by eapply cut_tail.
Qed.

(** The matches inside [pre] are those of [pre] alone when no token
    straddles the end of [pre]. *)
Lemma matchAll_app pre : forall skip s,
  (skip <= length pre)%nat ->
  cut isLetter pre s -> cut isBit pre s ->
  matchAll skip (pre ++ s) = matchAll skip pre ++ matchAll 0 s.
Proof.
  induction pre as [|c pre IH]; intros skip s Hskip HL HB.
  - simpl in Hskip. by replace skip with 0%nat by lia.
  - assert (forall k, (k <= length pre)%nat ->
              matchAll k (pre ++ s) = matchAll k pre ++ matchAll 0 s) as IH'.
    { intros k Hk. destruct pre as [|c' pre].
      - simpl in Hk. by replace k with 0%nat by lia.
      - apply IH; [done | by eapply cut_tail | by eapply cut_tail]. }
    destruct skip as [|k]; simpl.
    + destruct (isLetter c) eqn:Hc.
      * replace (takeWhile isLetter (pre ++ s)) with (takeWhile isLetter pre).
        2:{ pose proof (takeWhile_cut isLetter (c :: pre) s) as H. simpl in H.
            rewrite Hc in H. injection H; [done | done | done]. }
        rewrite IH'; [done |]. simpl. pose proof (takeWhile_length isLetter pre). lia.
      * destruct (isBit c) eqn:Hb.
        -- replace (takeWhile isBit (pre ++ s)) with (takeWhile isBit pre).
           2:{ pose proof (takeWhile_cut isBit (c :: pre) s) as H. simpl in H.
               rewrite Hb in H. injection H; [done | done | done]. }
           rewrite IH'; [done |]. simpl. pose proof (takeWhile_length isBit pre). lia.
        -- destruct (negb (isWord c)); rewrite IH'; simpl; done || lia.
    + apply IH'. simpl in Hskip. lia.
Qed.

Lemma matchAll_skip run : forall s, matchAll (length run) (run ++ s) = matchAll 0 s.
Proof. induction run as [|c run IH]; intros s; simpl; [done | apply IH]. Qed.

Lemma matchAll_bits run rest :
  run <> [] -> forallb isBit run = true ->
  match rest with c :: _ => isBit c = false | [] => True end ->
  matchAll 0 (run ++ rest) = run :: matchAll 0 rest.
Proof.
  intros Hne Hrun Hrest. destruct run as [|c run]; [done |].
  pose proof (takeWhile_run isBit (c :: run) rest Hrun Hrest) as Htw.
  simpl in *. apply andb_true_iff in Hrun as [Hc Hrun].
  assert (isLetter c = false) as ->.
  { unfold isBit in Hc. unfold isLetter, isUpper, isLower.
    apply orb_true_iff in Hc as [Hc | Hc]; apply N.eqb_eq in Hc; by subst. }
  rewrite Hc in *. rewrite Htw. simpl. rewrite Nat.sub_0_r.
  by rewrite matchAll_skip.
Qed.

(** C7 (amended). A maximal run of the digits 0 and 1 becomes ONE token,
    the run itself, however long it is; the text before and the text after
    are tokenized on their own. *)
Theorem digit_run_is_one_token (pre run rest : str) :
  run <> [] ->
  forallb isBit run = true ->
  isBit (List.last pre 0) = false ->
  match rest with c :: _ => isBit c = false | [] => True end ->
  matchAll 0 (pre ++ run ++ rest) = matchAll 0 pre ++ run :: matchAll 0 rest.
Proof.
  intros Hne Hrun Hpre Hrest.
  rewrite matchAll_app.
  - by rewrite matchAll_bits.
  - lia.
  - destruct run as [|c run]; [done |]. simpl. intros Hc.
    simpl in Hrun. apply andb_true_iff in Hrun as [Hb _].
    exfalso. unfold isBit in Hb. unfold isLetter, isUpper, isLower in Hc.
    apply orb_true_iff in Hb as [Hb | Hb]; apply N.eqb_eq in Hb; by subst.
  - destruct run as [|c run]; [done |]. simpl. done.
Qed.

Lemma digit_run_is_one_token_witness :
  matchAll 0 (lit "A+" ++ lit "1011" ++ lit "+B")
  = matchAll 0 (lit "A+") ++ lit "1011" :: matchAll 0 (lit "+B").
Proof.
  apply (digit_run_is_one_token (lit "A+") (lit "1011") (lit "+B")).
  - discriminate.
  - reflexivity.
  - reflexivity.
  - reflexivity.
Defined.

(** ** C6: [evaluate] and the array it is given *)

Lemma inherited_has_letter k : inherited k = true -> strRegex k = true.
Proof.
  unfold inherited. rewrite existsb_exists. intros [x [Hin Hx]].
  apply str_eqb_eq in Hx. subst x.
  repeat (destruct Hin as [<- | Hin]; [reflexivity |]). destruct Hin.
Qed.

Lemma no_letter_plain v : strRegex (ToString v) = false -> plain v.
Proof.
  intros H. unfold plain. destruct (inherited (ToString v)) eqn:E; [| done].
  apply inherited_has_letter in E. congruence.
Qed.

Lemma plain_undef : plain VUndef.
Proof. reflexivity. Qed.

Lemma plain_bool b : plain (VBool b).
Proof. by destruct b. Qed.

#[local] Hint Resolve plain_undef plain_bool : core.

Lemma operations1_plain k f a : get operations1 k = Some f -> plain (f a).
Proof.
  unfold operations1. cbn [get]. destruct (str_eqb k [c_not]); [| done].
  intros [= <-]. apply plain_bool.
Qed.

Lemma operations2_plain k f a b :
  get operations2 k = Some f -> plain a -> plain b -> plain (f a b).
Proof.
  unfold operations2. cbn [get]. intros Hf Ha Hb.
  repeat match type of Hf with
         | (if ?c then _ else _) = _ => destruct c; [injection Hf as <- |]
         end; try done;
    unfold js_and, js_or, js_not;
    repeat match goal with |- context [truthy ?x] => destruct (truthy x) end;
    auto.
Qed.

Lemma conversion_plain k v : get conversion k = Some v -> plain v.
Proof.
  unfold conversion. cbn [get]. intros Hv.
  repeat match type of Hv with
         | (if ?c then _ else _) = _ => destruct c; [injection Hv as <- |]
         end; done.
Qed.

Lemma bind_Ret {A B : Type} (m : M A) (k : A -> M B) h a h' :
  m h = Ret (a, h') -> bind m k h = k a h'.
Proof. unfold bind. by intros ->. Qed.

Lemma pop_Ret h r a :
  h !! r = Some a -> pop r h = Ret (List.last a VUndef, <[r := removelast a]> h).
Proof. unfold pop. by intros ->. Qed.

Lemma read_Ret h r a : h !! r = Some a -> read r h = Ret (a, h).
Proof. unfold read. by intros ->. Qed.

Lemma lookup_insert_same (h : store) r a b :
  h !! r = Some a -> <[r := b]> h !! r = Some b.
Proof. intros H. apply list_lookup_insert_eq. by eapply lookup_lt_Some. Qed.

(** With more fuel than the array has elements, [evaluate] returns; it
    leaves in the array a proper prefix of what it found there (nothing of
    an empty array), and no other array changes. *)
Lemma evaluate_fuel_Ret n : forall (h : store) r a,
  h !! r = Some a -> (length a < n)%nat -> Forall plain a ->
  exists v a' consumed,
    evaluate_fuel n r h = Ret (v, <[r := a']> h)
    /\ a = a' ++ consumed
    /\ (a <> [] -> consumed <> [])
    /\ plain v.
Proof.
  induction n as [|n IH]; intros h r a Hr Hlen Hplain; [lia |].
  cbn [evaluate_fuel]. rewrite (bind_Ret _ _ _ _ _ (pop_Ret _ _ _ Hr)).
  destruct (decide (a = [])) as [-> | Hne].
  { exists VUndef, [], []. by repeat split. }
  destruct (exists_last Hne) as [a0 [x ->]].
  rewrite last_last, removelast_last.
  apply Forall_app in Hplain as [Hplain0 Hx]. apply Forall_inv in Hx.
  rewrite length_app in Hlen. simpl in Hlen.
  pose proof (lookup_insert_same h r _ a0 Hr) as Hr0.
  rewrite (Hx : inherited (ToString x) = false).
  destruct (get operations1 (ToString x)) as [f|] eqn:E1.
  { destruct (IH _ r a0 Hr0 ltac:(lia) Hplain0) as (v & a1 & c1 & Hev & -> & _ & Hv).
    rewrite (bind_Ret _ _ _ _ _ Hev). rewrite list_insert_insert_eq.
    exists (f v), a1, (c1 ++ [x]). repeat split.
    - by rewrite app_assoc.
    - by destruct c1.
    - by eapply operations1_plain. }
  destruct (get operations2 (ToString x)) as [f|] eqn:E2.
  { destruct (IH _ r a0 Hr0 ltac:(lia) Hplain0) as (v & a1 & c1 & Hev & -> & _ & Hv).
    rewrite (bind_Ret _ _ _ _ _ Hev). rewrite list_insert_insert_eq.
    apply Forall_app in Hplain0 as [Hplain1 _].
    rewrite length_app in Hlen.
    pose proof (lookup_insert_same h r _ a1 Hr) as Hr1.
    destruct (IH _ r a1 Hr1 ltac:(lia) Hplain1) as (w & a2 & c2 & Hev2 & -> & _ & Hw).
    rewrite (bind_Ret _ _ _ _ _ Hev2). rewrite list_insert_insert_eq.
    exists (f v w), a2, (c2 ++ c1 ++ [x]). repeat split.
    - by rewrite <- !app_assoc.
    - destruct c2; [by destruct c1 | done].
    - by eapply operations2_plain. }
  destruct (get conversion (ToString x)) as [c|] eqn:E3.
  - exists c, a0, [x]. repeat split; [done |]. by eapply conversion_plain.
  - exists x, a0, [x]. by repeat split.
Qed.

Lemma evaluate_Ret (h : store) r a :
  h !! r = Some a -> Forall plain a ->
  exists v a' consumed,
    evaluate r h = Ret (v, <[r := a']> h)
    /\ a = a' ++ consumed
    /\ (a <> [] -> consumed <> [])
    /\ plain v.
Proof.
  intros Hr Hplain. unfold evaluate.
  rewrite (bind_Ret _ _ _ _ _ (read_Ret _ _ _ Hr)).
  apply evaluate_fuel_Ret; [done | lia | done].
Qed.

Lemma index_plain input n : Forall plain input -> plain (index input n).
Proof.
  intros H. unfold index. destruct (n <? 0)%Z; [done |].
  destruct (input !! Z.to_nat n) as [v|] eqn:E; simpl; [| done].
  by eapply Forall_lookup_1.
Qed.

Lemma substitute_plain input tokens : forall n,
  Forall plain input -> Forall plain (substitute input n tokens).
Proof.
  induction tokens as [|token tokens IH]; intros n H; simpl; [done |].
  destruct (strRegex (ToString token)) eqn:E; constructor; auto.
  - by apply index_plain.
  - by apply no_letter_plain.
Qed.

Lemma substitute_length input tokens : forall n,
  length (substitute input n tokens) = length tokens.
Proof.
  induction tokens as [|token tokens IH]; intros n; simpl; [done |].
  destruct (strRegex (ToString token)); simpl; by rewrite IH.
Qed.

Lemma convert_Ret v : plain v -> exists out, convert v = Ret out.
Proof.
  intros H. unfold convert. rewrite (H : inherited (ToString v) = false).
  destruct (get conversion (ToString v)); by eexists.
Qed.

Lemma new_Ret (h : store) a : new a h = Ret (length h, h ++ [a]).
Proof. done. Qed.

Lemma lift_Ret {A : Type} (m : outcome A) a (h : store) : m = Ret a -> lift m h = Ret (a, h).
Proof. by intros ->. Qed.

Lemma insert_last (h : store) a b : <[length h := b]> (h ++ [a]) = h ++ [b].
Proof. rewrite insert_app_r_alt; [| lia]. by rewrite Nat.sub_diag. Qed.

Lemma getOutputs_Ret inputs : forall (h : store) exp tokens,
  h !! exp = Some tokens -> Forall (Forall plain) inputs ->
  exists outputs copies,
    getOutputs exp inputs h = Ret (outputs, h ++ copies)
    /\ length outputs = length inputs
    /\ Forall2 (leftover tokens) inputs copies
    /\ Forall plain outputs.
Proof.
  induction inputs as [|input inputs IH]; intros h exp tokens Hexp Hplain.
  - exists [], []. rewrite app_nil_r. by repeat split.
  - apply Forall_cons in Hplain as [Hinput Hplain].
    cbn [getOutputs].
    rewrite (bind_Ret _ _ _ _ _ (read_Ret _ _ _ Hexp)).
    rewrite (bind_Ret _ _ _ _ _ (new_Ret _ _)).
    destruct (evaluate_Ret (h ++ [substitute input (-1) tokens]) (length h) _
                (list_lookup_middle _ _ _ _ eq_refl)
                (substitute_plain _ _ _ Hinput))
      as (v & left & consumed & Hev & Hsub & Hne & Hv).
    rewrite (bind_Ret _ _ _ _ _ Hev), insert_last.
    destruct (convert_Ret v Hv) as [out Hout].
    rewrite (bind_Ret _ _ _ _ _ (lift_Ret _ _ _ Hout)).
    destruct (IH (h ++ [left]) exp tokens) as (outputs & copies & Hget & Hlen & Hcopies & Hpl);
      [by apply lookup_app_l_Some | done |].
    rewrite (bind_Ret _ _ _ _ _ Hget).
    exists (out :: outputs), (left :: copies). repeat split.
    + unfold ret. by rewrite <- app_assoc.
    + simpl. by rewrite Hlen.
    + constructor; [| done]. exists consumed. split; [done |].
      intros Ht. apply Hne. intros Hnil.
      apply (f_equal length) in Hnil. rewrite substitute_length in Hnil.
      by destruct tokens.
    + constructor; [| done].
      unfold convert in Hout. rewrite (Hv : inherited (ToString v) = false) in Hout.
      destruct (get conversion (ToString v)) eqn:E; injection Hout as <-; [| done].
      by eapply conversion_plain.
Qed.

(** One evaluation empties the array ['1']. *)
Lemma evaluate_consumes_its_array :
  ~ (forall (h : store) exp a v h',
        h !! exp = Some a -> evaluate exp h = Ret (v, h') -> h' !! exp = Some a).
Proof.
  intros H.
  specialize (H [[VStr (lit "1")]] 0%nat [VStr (lit "1")] (VBool true) [[]] eq_refl eq_refl).
  discriminate H.
Qed.

(** C6 (amended). [evaluate] consumes the array it is given: it removes
    from its end the tokens it reads. [getOutputs] gives it a new array,
    made by [map], for every assignment, so the postfix sequence it was
    given, and every other array that existed, is unchanged when
    [getOutputs] returns, there is one output per assignment, and of each
    copy only a proper prefix is left. *)
Theorem getOutputs_keeps_template (h : store) exp tokens inputs :
  h !! exp = Some tokens ->
  Forall (Forall plain) inputs ->
  exists outputs copies,
    getOutputs exp inputs h = Ret (outputs, h ++ copies)
    /\ (h ++ copies) !! exp = Some tokens
    /\ length outputs = length inputs
    /\ Forall2 (leftover tokens) inputs copies.
Proof.
  intros Hexp Hplain.
  destruct (getOutputs_Ret inputs h exp tokens Hexp Hplain)
    as (outputs & copies & Hget & Hlen & Hcopies & _).
  exists outputs, copies. repeat split; try done.
  by apply lookup_app_l_Some.
Qed.

Lemma getOutputs_keeps_template_witness :
  exists outputs copies,
    getOutputs 0 [[VStr (lit "0")]; [VStr (lit "1")]] [[VStr (lit "A"); VStr [c_not]]]
    = Ret (outputs, [[VStr (lit "A"); VStr [c_not]]] ++ copies)
    /\ ([[VStr (lit "A"); VStr [c_not]]] ++ copies) !! 0%nat = Some [VStr (lit "A"); VStr [c_not]]
    /\ length outputs = length [[VStr (lit "0")]; [VStr (lit "1")]]
    /\ Forall2 (leftover [VStr (lit "A"); VStr [c_not]])
               [[VStr (lit "0")]; [VStr (lit "1")]] copies.
Proof.
  apply (getOutputs_keeps_template
           [[VStr (lit "A"); VStr [c_not]]] 0 [VStr (lit "A"); VStr [c_not]]
           [[VStr (lit "0")]; [VStr (lit "1")]]).
  - reflexivity.
  - repeat constructor.
Defined.

(** ** C10: the label Q and the order of the two tables *)

Lemma createCircuit_fuel_Ret n : forall (h : store) r a direction parentNode node,
  h !! r = Some a -> (length a < n)%nat ->
  exists calls a',
    createCircuit_fuel n r direction parentNode node h = Ret (calls, <[r := a']> h)
    /\ (length a' <= length a)%nat.
Proof.
  induction n as [|n IH]; intros h r a direction parentNode node Hr Hlen; [lia |].
  cbn [createCircuit_fuel]. rewrite (bind_Ret _ _ _ _ _ (pop_Ret _ _ _ Hr)).
  destruct (decide (a = [])) as [-> | Hne].
  { eexists _, []. split; [reflexivity | done]. }
  destruct (exists_last Hne) as [a0 [x ->]].
  rewrite last_last, removelast_last.
  rewrite length_app in Hlen. simpl in Hlen.
  pose proof (lookup_insert_same h r _ a0 Hr) as Hr0.
  destruct (isIn (ToString x) operations1 || isIn (ToString x) operations2).
  - destruct (isIn (ToString x) operations1).
    + destruct (IH _ r a0 0%Z (Some node) (node ++ lit "0") Hr0 ltac:(lia))
        as (c0 & a1 & Hev & Hle).
      unfold bind, ret. rewrite Hev, list_insert_insert_eq.
      eexists _, a1. split; [reflexivity |]. rewrite length_app. lia.
    + destruct (IH _ r a0 (-1)%Z (Some node) (node ++ lit "0") Hr0 ltac:(lia))
        as (c0 & a1 & Hev & Hle).
      pose proof (lookup_insert_same h r _ a1 Hr) as Hr1.
      destruct (IH _ r a1 1%Z (Some node) (node ++ lit "1") Hr1 ltac:(lia))
        as (c1 & a2 & Hev2 & Hle2).
      unfold bind, ret. rewrite Hev, list_insert_insert_eq, Hev2, list_insert_insert_eq.
      eexists _, a2. split; [reflexivity |]. rewrite length_app. lia.
  - unfold bind, ret. eexists _, a0. split; [reflexivity |]. rewrite length_app. lia.
Qed.

Lemma createCircuit_Ret (h : store) r a :
  h !! r = Some a ->
  exists calls a', createCircuit r h = Ret (calls, <[r := a']> h).
Proof.
  intros Hr. unfold createCircuit.
  rewrite (bind_Ret _ _ _ _ _ (read_Ret _ _ _ Hr)).
  destruct (createCircuit_fuel_Ret (S (length a)) h r a 0%Z None (lit "0") Hr ltac:(lia))
    as (calls & a' & H & _).
  by exists calls, a'.
Qed.

Lemma createKarnaughMap_Ret (h : store) outputs variables vars :
  h !! variables = Some vars ->
  createKarnaughMap outputs variables h = Ret (karnaughRows outputs vars, h).
Proof.
  intros Hv. unfold createKarnaughMap.
  by rewrite (bind_Ret _ _ _ _ _ (read_Ret _ _ _ Hv)).
Qed.

Lemma createTruthTable_Ret (h : store) inputs outputs variables vars :
  h !! variables = Some vars ->
  createTruthTable inputs outputs variables h
  = Ret (truthRows inputs outputs (vars ++ [VStr (lit "Q")]),
         <[variables := vars ++ [VStr (lit "Q")]]> h).
Proof.
  intros Hv. unfold createTruthTable, push, bind. rewrite Hv.
  unfold read. by rewrite (lookup_insert_same h variables vars _ Hv).
Qed.

Lemma binary_bits p : forallb isBit (binary p) = true.
Proof. induction p; simpl; rewrite ?forallb_app, ?IHp; done. Qed.

Lemma padStart_bits n z : (0 <= z)%Z -> forallb isBit (padStart n (toString2 z)) = true.
Proof.
  intros Hz. unfold padStart. rewrite forallb_app. apply andb_true_iff. split.
  - induction (n - length (toString2 z))%nat; [done | done].
  - destruct z; [done | apply binary_bits | lia].
Qed.

Lemma getInputs_plain len : Forall (Forall plain) (getInputs len).
Proof.
  unfold getInputs. apply Forall_map, Forall_forall. intros i _.
  pose proof (padStart_bits len (Z.of_nat i) ltac:(lia)) as H.
  induction (padStart len (toString2 (Z.of_nat i))) as [|c s IH]; simpl in *; [done |].
  apply andb_true_iff in H as [Hc Hs]. constructor; [| by apply IH].
  apply no_letter_plain. simpl. unfold isBit in Hc. unfold isLetter, isUpper, isLower.
  apply orb_true_iff in Hc as [Hc | Hc]; apply N.eqb_eq in Hc; by subst.
Qed.

(** [newExpression] returns for every text that has a token; the Karnaugh
    map is made of the variables as collected, the truth table of the
    variables and the label Q, which is still in the array afterwards. *)
Lemma newExpression_Ret value tokens (h : store) :
  tokenize value = Some tokens ->
  exists r h',
    newExpression value h = Ret (r, h')
    /\ karnaughOf r = karnaughRows (outputsOf r) (variablesOf tokens)
    /\ truthOf r = truthRows (getInputs (length (variablesOf tokens))) (outputsOf r)
                             (variablesOf tokens ++ [VStr (lit "Q")])
    /\ h' !! length h = Some (variablesOf tokens ++ [VStr (lit "Q")]).
Proof.
  intros Htok. unfold newExpression. rewrite Htok.
  fold (variablesOf tokens). set (vars := variablesOf tokens).
  rewrite (bind_Ret _ _ _ _ _ (new_Ret _ _)).
  destruct (convertToPostfix_Ret tokens) as [postfix Hpost].
  rewrite (bind_Ret _ _ _ _ _ (lift_Ret _ _ _ Hpost)).
  rewrite (bind_Ret _ _ _ _ _ (new_Ret _ _)).
  set (h2 := (h ++ [vars]) ++ [map VStr postfix]).
  assert (h2 !! length h = Some vars) as Hvars.
  { apply lookup_app_l_Some. by apply list_lookup_middle. }
  assert (h2 !! length (h ++ [vars]) = Some (map VStr postfix)) as Hexp.
  { by apply list_lookup_middle. }
  rewrite (bind_Ret _ _ _ _ _ (read_Ret _ _ _ Hvars)).
  destruct (getOutputs_Ret (getInputs (length vars)) h2 _ _ Hexp (getInputs_plain _))
    as (outputs & copies & Hget & _ & _ & _).
  rewrite (bind_Ret _ _ _ _ _ Hget).
  assert ((h2 ++ copies) !! length (h ++ [vars]) = Some (map VStr postfix)) as Hexp'
    by by apply lookup_app_l_Some.
  destruct (createCircuit_Ret _ _ _ Hexp') as (calls & a' & Hcirc).
  rewrite (bind_Ret _ _ _ _ _ Hcirc).
  assert (<[length (h ++ [vars]) := a']> (h2 ++ copies) !! length h = Some vars) as Hvars'.
  { rewrite list_lookup_insert_ne; [by apply lookup_app_l_Some |].
    rewrite length_app. simpl. lia. }
  rewrite (bind_Ret _ _ _ _ _ (createKarnaughMap_Ret _ _ _ _ Hvars')).
  rewrite (bind_Ret _ _ _ _ _ (createTruthTable_Ret _ _ _ _ _ Hvars')).
  eexists _, _. split; [reflexivity |]. simpl. repeat split.
  by eapply lookup_insert_same.
Qed.

Lemma half_succ_le n : (S n / 2 <= n)%nat.
Proof.
  destruct n as [|n]; [done |].
  apply Nat.Div0.div_le_upper_bound. lia.
Qed.

Lemma join_app a b : join (a ++ b) = join a ++ join b.
Proof. unfold join. by rewrite map_app, concat_app. Qed.

Lemma join_names (l : list str) : join (map VStr l) = concat l.
Proof. unfold join. induction l as [|x l IH]; simpl; [done | by rewrite IH]. Qed.

(** The text of the corner is one code unit longer than the names put
    together. *)
Lemma corner_length k (l : list value) :
  length (join (take k l) ++ [92] ++ join (drop k l)) = S (length (join l)).
Proof.
  rewrite <- (take_drop k l) at 3.
  rewrite join_app, !length_app. simpl. lia.
Qed.

(** The two groups of the variables followed by Q. *)
Lemma groups_with_Q (vars : list value) :
  take (length (vars ++ [VStr (lit "Q")]) / 2) (vars ++ [VStr (lit "Q")])
  = take (S (length vars) / 2) vars
  /\ drop (length (vars ++ [VStr (lit "Q")]) / 2) (vars ++ [VStr (lit "Q")])
     = drop (S (length vars) / 2) vars ++ [VStr (lit "Q")].
Proof.
  rewrite length_app, Nat.add_1_r. split.
  - apply take_app_le, half_succ_le.
  - apply drop_app_le, half_succ_le.
Qed.

(** C10. [createTruthTable] pushes the label Q onto the array of variables
    it is given, so the caller's array holds it afterwards and the header
    of the truth table ends with Q. In [newExpression] the Karnaugh map is
    made first, from the variables as collected: its corner shows the two
    groups of the variable names and no Q, while the truth table made
    after it has the names and Q in its header. With the truth table made
    first, the Karnaugh map is made of the variables and Q: Q is the last
    name in the corner, the map has the rows and columns of one more
    variable, and it is another map than the one made in the order of the
    code. *)
Theorem Q_label_and_table_order value tokens (h h0 : store) variables vars inputs outputs :
  tokenize value = Some tokens ->
  h0 !! variables = Some vars ->
  (exists rows,
     createTruthTable inputs outputs variables h0
     = Ret (truthRows inputs outputs (vars ++ [VStr (lit "Q")]),
            <[variables := vars ++ [VStr (lit "Q")]]> h0)
     /\ truthRows inputs outputs (vars ++ [VStr (lit "Q")])
        = (map (fun variable => textCell (ToString variable)) vars ++ [textCell (lit "Q")])
          :: rows)
  /\ (exists r h' cells rows trows,
        newExpression value h = Ret (r, h')
        /\ h' !! length h = Some (variablesOf tokens ++ [VStr (lit "Q")])
        /\ karnaughOf r = karnaughRows (outputsOf r) (variablesOf tokens)
        /\ truthOf r = truthRows (getInputs (length (variablesOf tokens))) (outputsOf r)
                                 (variablesOf tokens ++ [VStr (lit "Q")])
        /\ karnaughOf r
           = (textCell (concat (take (length (distinct [] (List.filter strRegex tokens)) / 2)
                                     (distinct [] (List.filter strRegex tokens)))
                        ++ [92]
                        ++ concat (drop (length (distinct [] (List.filter strRegex tokens)) / 2)
                                        (distinct [] (List.filter strRegex tokens))))
              :: cells) :: rows
        /\ truthOf r
           = (map textCell (distinct [] (List.filter strRegex tokens)) ++ [textCell (lit "Q")])
             :: trows)
  /\ (do km <- createKarnaughMap outputs variables;
      do tt <- createTruthTable inputs outputs variables;
      ret km) h0
     = Ret (karnaughRows outputs vars, <[variables := vars ++ [VStr (lit "Q")]]> h0)
  /\ (do tt <- createTruthTable inputs outputs variables;
      do km <- createKarnaughMap outputs variables;
      ret km) h0
     = Ret (karnaughRows outputs (vars ++ [VStr (lit "Q")]),
            <[variables := vars ++ [VStr (lit "Q")]]> h0)
  /\ (exists cells rows,
        karnaughRows outputs vars
        = (textCell (join (take (length vars / 2) vars)
                     ++ [92] ++ join (drop (length vars / 2) vars)) :: cells) :: rows
        /\ length rows = (2 ^ (length vars / 2))%nat
        /\ length cells = (2 ^ (length vars - length vars / 2))%nat)
  /\ (exists cells rows,
        karnaughRows outputs (vars ++ [VStr (lit "Q")])
        = (textCell (join (take (S (length vars) / 2) vars)
                     ++ [92] ++ join (drop (S (length vars) / 2) vars) ++ lit "Q")
           :: cells) :: rows
        /\ length rows = (2 ^ (S (length vars) / 2))%nat
        /\ length cells = (2 ^ (S (length vars) - S (length vars) / 2))%nat)
  /\ karnaughRows outputs vars <> karnaughRows outputs (vars ++ [VStr (lit "Q")]).
Proof.
  intros Htok Hv.
  pose proof (lookup_insert_same h0 variables vars (vars ++ [VStr (lit "Q")]) Hv) as Hq.
  destruct (groups_with_Q vars) as [Htake Hdrop].
  split.
  { eexists. split; [by apply createTruthTable_Ret |].
    unfold truthRows. by rewrite map_app. }
  split.
  { destruct (newExpression_Ret value tokens h Htok) as (r & h' & Hnew & Hkm & Htt & Hh').
    exists r, h'. rewrite Hkm, Htt. unfold variablesOf.
    set (l := distinct [] (List.filter strRegex tokens)).
    eexists _, _, _. do 4 (split; [done |]). split.
    - unfold karnaughRows. rewrite length_map, firstn_map, skipn_map, !join_names.
      reflexivity.
    - unfold truthRows. rewrite map_app, map_map. reflexivity. }
  split.
  { rewrite (bind_Ret _ _ _ _ _ (createKarnaughMap_Ret _ _ _ _ Hv)).
    by rewrite (bind_Ret _ _ _ _ _ (createTruthTable_Ret _ _ _ _ _ Hv)). }
  split.
  { rewrite (bind_Ret _ _ _ _ _ (createTruthTable_Ret _ _ _ _ _ Hv)).
    by rewrite (bind_Ret _ _ _ _ _ (createKarnaughMap_Ret _ _ _ _ Hq)). }
  split.
  { eexists _, _. split; [reflexivity |].
    by rewrite !length_map, !length_seq. }
  split.
  { unfold karnaughRows. rewrite Htake, Hdrop, join_app.
    eexists _, _. split; [reflexivity |].
    rewrite !length_map, !length_seq, length_app, Nat.add_1_r. done. }
  intros Heq. unfold karnaughRows in Heq.
  injection Heq as Hkey _ _. apply (f_equal (@length N)) in Hkey.
  rewrite !corner_length, join_app, length_app in Hkey. simpl in Hkey. lia.
Qed.

Lemma Q_label_and_table_order_witness :
  (exists r h' cells rows trows,
     newExpression (lit "A.B") [] = Ret (r, h')
     /\ h' !! length (@nil (list value))
        = Some (variablesOf [lit "A"; [c_and]; lit "B"] ++ [VStr (lit "Q")])
     /\ karnaughOf r = karnaughRows (outputsOf r) (variablesOf [lit "A"; [c_and]; lit "B"])
     /\ truthOf r = truthRows (getInputs (length (variablesOf [lit "A"; [c_and]; lit "B"])))
                              (outputsOf r)
                              (variablesOf [lit "A"; [c_and]; lit "B"] ++ [VStr (lit "Q")])
     /\ karnaughOf r = (textCell (lit "A" ++ [92] ++ lit "B") :: cells) :: rows
     /\ truthOf r = [textCell (lit "A"); textCell (lit "B"); textCell (lit "Q")] :: trows)
  /\ (exists cells rows,
        karnaughRows [VStr (lit "0"); VStr (lit "0"); VStr (lit "0"); VStr (lit "1")]
                     [VStr (lit "A"); VStr (lit "B"); VStr (lit "Q")]
        = (textCell (lit "A" ++ [92] ++ lit "BQ") :: cells) :: rows
        /\ length rows = 2%nat
        /\ length cells = 4%nat)
  /\ karnaughRows [VStr (lit "0"); VStr (lit "0"); VStr (lit "0"); VStr (lit "1")]
                  [VStr (lit "A"); VStr (lit "B")]
     <> karnaughRows [VStr (lit "0"); VStr (lit "0"); VStr (lit "0"); VStr (lit "1")]
                     [VStr (lit "A"); VStr (lit "B"); VStr (lit "Q")].
Proof.
  destruct (Q_label_and_table_order (lit "A.B") [lit "A"; [c_and]; lit "B"] []
              [[VStr (lit "A"); VStr (lit "B")]] 0 [VStr (lit "A"); VStr (lit "B")]
              (getInputs 2) [VStr (lit "0"); VStr (lit "0"); VStr (lit "0"); VStr (lit "1")])
    as (_ & Hpipeline & _ & _ & _ & Hswapped & Hdiffer).
  - reflexivity.
  - reflexivity.
  - exact (conj Hpipeline (conj Hswapped Hdiffer)).
Defined.

#[local] Open Scope Z_scope.

(** ** C9: neighbours in the Gray code *)

Lemma ToInt32_small z : 0 <= z < 2 ^ 31 -> ToInt32 z = z.
Proof.
  intros H. unfold ToInt32. rewrite Z.mod_small by lia.
  destruct (Z.ltb_spec z (2 ^ 31)); lia.
Qed.

Lemma lxor_mod_pow2 x y k :
  0 <= k -> Z.lxor x y mod 2 ^ k = Z.lxor (x mod 2 ^ k) (y mod 2 ^ k).
Proof.
  intros Hk. apply Z.bits_inj'. intros n Hn.
  rewrite Z.lxor_spec, !Z.testbit_mod_pow2, Z.lxor_spec by lia.
  destruct (n <? k); done.
Qed.

Lemma lxor_range x y k :
  0 <= k -> 0 <= x < 2 ^ k -> 0 <= y < 2 ^ k -> 0 <= Z.lxor x y < 2 ^ k.
Proof.
  intros Hk Hx Hy.
  rewrite <- (Z.mod_small x (2 ^ k)), <- (Z.mod_small y (2 ^ k)) by lia.
  rewrite <- lxor_mod_pow2 by lia. apply Z.mod_pos_bound. lia.
Qed.

Lemma shiftr1_range x k : 0 <= x < 2 ^ k -> 0 <= Z.shiftr x 1 < 2 ^ k.
Proof.
  intros Hx. rewrite Z.shiftr_div_pow2 by lia. change (2 ^ 1) with 2.
  Z.div_mod_to_equations. lia.
Qed.

Lemma reflected_range i k : 0 <= k -> 0 <= i < 2 ^ k -> 0 <= reflected i < 2 ^ k.
Proof. intros Hk Hi. apply lxor_range; [done | done | by apply shiftr1_range]. Qed.

Lemma pow2_le_31 k : 0 <= k <= 31 -> 2 ^ k <= 2 ^ 31.
Proof. intros H. apply Z.pow_le_mono_r; lia. Qed.

(** Below 2^31 the conversions change nothing. *)
Lemma gray_reflected i : 0 <= i < 2 ^ 31 -> gray i = reflected i.
Proof.
  intros Hi. unfold gray. rewrite (ToInt32_small i Hi).
  apply ToInt32_small. by apply (reflected_range i 31).
Qed.

Lemma reflected_testbit i m :
  0 <= m -> Z.testbit (reflected i) m = xorb (Z.testbit i m) (Z.testbit i (m + 1)).
Proof. intros Hm. unfold reflected. by rewrite Z.lxor_spec, Z.shiftr_spec. Qed.

Lemma testbit_double q m : 0 <= m -> Z.testbit (2 * q) (m + 1) = Z.testbit q m.
Proof. intros Hm. apply Z.testbit_even_succ; lia. Qed.

Lemma testbit_double1 q m : 0 <= m -> Z.testbit (2 * q + 1) (m + 1) = Z.testbit q m.
Proof. intros Hm. apply Z.testbit_odd_succ; lia. Qed.

Lemma oneChange_even q : 0 <= q -> oneChange (2 * q).
Proof.
  intros Hq. exists 0. split; [lia |]. split; [change (2 ^ 0) with 1; lia |].
  intros m Hm. unfold flips. rewrite !reflected_testbit by lia.
  rewrite !testbit_double, !testbit_double1 by lia.
  destruct (Z.eq_dec m 0) as [-> | Hne].
  - rewrite Z.testbit_even_0, Z.testbit_odd_0. by destruct (Z.testbit q 0).
  - replace (m =? 0) with false by (symmetry; apply Z.eqb_neq; lia).
    replace m with (m - 1 + 1) by lia.
    rewrite !testbit_double, !testbit_double1 by lia. apply xorb_nilpotent.
Qed.

Lemma oneChange_odd q : 0 <= q -> oneChange q -> oneChange (2 * q + 1).
Proof.
  intros Hq (j & Hj & Hle & Hch). exists (j + 1). split; [lia |]. split.
  { rewrite Z.pow_add_r by lia. change (2 ^ 1) with 2. lia. }
  intros m Hm. unfold flips. rewrite !reflected_testbit by lia.
  replace (2 * q + 1 + 1) with (2 * (q + 1)) by lia.
  rewrite !testbit_double, !testbit_double1 by lia.
  destruct (Z.eq_dec m 0) as [-> | Hne].
  - replace (0 =? j + 1) with false by (symmetry; apply Z.eqb_neq; lia).
    rewrite Z.testbit_even_0, Z.testbit_odd_0.
    rewrite !Z.bit0_odd. replace (q + 1) with (Z.succ q) by lia.
    rewrite Z.odd_succ, <- Z.negb_odd. by destruct (Z.odd q).
  - specialize (Hch (m - 1) ltac:(lia)). unfold flips in Hch.
    rewrite !reflected_testbit in Hch by lia.
    replace (m - 1 + 1) with m in Hch by lia.
    replace (Z.testbit (2 * q + 1) m) with (Z.testbit q (m - 1)).
    2:{ rewrite <- (testbit_double1 q (m - 1)) by lia. f_equal. lia. }
    replace (Z.testbit (2 * (q + 1)) m) with (Z.testbit (q + 1) (m - 1)).
    2:{ rewrite <- (testbit_double (q + 1) (m - 1)) by lia. f_equal. lia. }
    rewrite Hch.
    destruct (Z.eqb_spec (m - 1) j), (Z.eqb_spec m (j + 1)); done || lia.
Qed.

Lemma oneChange_all i : 0 <= i -> oneChange i.
Proof.
  intros Hi. destruct i as [|p|p]; [| | lia].
  - apply (oneChange_even 0). lia.
  - clear Hi. induction p as [p IH | p IH |].
    + rewrite Pos2Z.inj_xI. apply oneChange_odd; [lia | done].
    + rewrite Pos2Z.inj_xO. apply oneChange_even. lia.
    + apply (oneChange_odd 0); [lia |]. apply (oneChange_even 0). lia.
Qed.

Lemma filter_eqb_seq j n : forall s,
  length (List.filter (fun m => m =? j)%nat (seq s n))
  = if ((s <=? j) && (j <? s + n))%nat then 1%nat else 0%nat.
Proof.
  induction n as [|n IH]; intros s.
  - simpl. destruct (Nat.leb_spec s j), (Nat.ltb_spec j (s + 0)); simpl; done || lia.
  - cbn [seq List.filter]. destruct (Nat.eqb_spec s j) as [-> | Hne]; cbn [length]; rewrite IH.
    + destruct (Nat.leb_spec (S j) j), (Nat.leb_spec j j), (Nat.ltb_spec j (j + S n));
        simpl; done || lia.
    + destruct (Nat.leb_spec (S s) j), (Nat.leb_spec s j),
        (Nat.ltb_spec j (S s + n)), (Nat.ltb_spec j (s + S n)); simpl; done || lia.
Qed.

Lemma one_difference (f : nat -> bool) (j k : nat) :
  (j < k)%nat -> (forall m, f m = (m =? j)%nat) ->
  length (List.filter f (seq 0 k)) = 1%nat.
Proof.
  intros Hj Hf.
  rewrite (List.filter_ext f (fun m => m =? j)%nat Hf), filter_eqb_seq.
  destruct (Nat.leb_spec 0 j), (Nat.ltb_spec j (0 + k)); simpl; done || lia.
Qed.

(** The two neighbours 2^31 - 1 and 2^31 have the same code. *)
Lemma gray_wraps_at_32 :
  gray (2 ^ 31 - 1) = gray (2 ^ 31)
  /\ ~ (forall i, 0 <= i <= 2 ^ 32 - 2 -> bitDifferences 32 (gray i) (gray (i + 1)) = 1%nat).
Proof.
  split; [reflexivity |].
  intros H. specialize (H (2 ^ 31 - 1) ltac:(lia)). vm_compute in H. discriminate H.
Qed.

(** C9 (amended). For every k from 1 to 31 and every i from 0 to
    2^k - 2, [gray i] and [gray (i + 1)] are below 2^k and differ in
    exactly one of their k bits, and so do [gray (2^k - 1)] and [gray 0].
    [gray] computes on 32-bit signed integers, and from k = 32 on the
    property is lost. *)
Theorem gray_neighbours (k : nat) :
  (1 <= k <= 31)%nat ->
  (forall i, 0 <= i <= 2 ^ Z.of_nat k - 2 ->
     gray i = Z.lxor i (Z.shiftr i 1)
     /\ 0 <= gray i < 2 ^ Z.of_nat k
     /\ 0 <= gray (i + 1) < 2 ^ Z.of_nat k
     /\ bitDifferences k (gray i) (gray (i + 1)) = 1%nat)
  /\ bitDifferences k (gray (2 ^ Z.of_nat k - 1)) (gray 0) = 1%nat.
Proof.
  intros Hk. pose proof (pow2_le_31 (Z.of_nat k) ltac:(lia)) as Hpow.
  assert (0 < 2 ^ Z.of_nat k) as Hpos by (apply Z.pow_pos_nonneg; lia).
  split.
  - intros i Hi. rewrite !gray_reflected by lia.
    split; [done |].
    split; [apply reflected_range; lia |]. split; [apply reflected_range; lia |].
    destruct (oneChange_all i ltac:(lia)) as (j & Hj & Hle & Hch).
    assert (j < Z.of_nat k) as Hjk.
    { apply (Z.pow_lt_mono_r_iff 2); lia. }
    apply (one_difference _ (Z.to_nat j)); [lia |].
    intros m. specialize (Hch (Z.of_nat m) ltac:(lia)). unfold flips in Hch.
    rewrite Hch. destruct (Z.eqb_spec (Z.of_nat m) j), (Nat.eqb_spec m (Z.to_nat j)); done || lia.
  - rewrite !gray_reflected by lia.
    apply (one_difference _ (k - 1)); [lia |].
    intros m. rewrite !reflected_testbit by lia.
    replace (2 ^ Z.of_nat k - 1) with (Z.ones (Z.of_nat k)) by (rewrite Z.ones_equiv; lia).
    rewrite !Z.testbit_ones, !Z.testbit_0_l by lia.
    destruct (Z.leb_spec 0 (Z.of_nat m)), (Z.leb_spec 0 (Z.of_nat m + 1)),
      (Z.ltb_spec (Z.of_nat m) (Z.of_nat k)), (Z.ltb_spec (Z.of_nat m + 1) (Z.of_nat k)),
      (Nat.eqb_spec m (k - 1)); simpl; done || lia.
Qed.

Lemma gray_neighbours_witness :
  (forall i, 0 <= i <= 2 ^ Z.of_nat 3 - 2 ->
     gray i = Z.lxor i (Z.shiftr i 1)
     /\ 0 <= gray i < 2 ^ Z.of_nat 3
     /\ 0 <= gray (i + 1) < 2 ^ Z.of_nat 3
     /\ bitDifferences 3 (gray i) (gray (i + 1)) = 1%nat)
  /\ bitDifferences 3 (gray (2 ^ Z.of_nat 3 - 1)) (gray 0) = 1%nat.
Proof. apply (gray_neighbours 3). lia. Defined.

(** ** C8: the cells of the Karnaugh map *)

Lemma reflected_lxor x y : Z.lxor (reflected x) (reflected y) = reflected (Z.lxor x y).
Proof.
  apply Z.bits_inj'. intros n Hn.
  rewrite Z.lxor_spec, !reflected_testbit, !Z.lxor_spec by lia.
  by destruct (Z.testbit x n), (Z.testbit y n), (Z.testbit x (n + 1)), (Z.testbit y (n + 1)).
Qed.

Lemma reflected_zero d : 0 <= d -> reflected d = 0 -> d = 0.
Proof.
  intros Hd H. unfold reflected in H. apply Z.lxor_eq in H.
  rewrite Z.shiftr_div_pow2 in H by lia. change (2 ^ 1) with 2 in H.
  Z.div_mod_to_equations. lia.
Qed.

Lemma reflected_inj x y : 0 <= x -> 0 <= y -> reflected x = reflected y -> x = y.
Proof.
  intros Hx Hy H. apply Z.lxor_eq. apply reflected_zero.
  - by apply Z.lxor_nonneg.
  - by rewrite <- reflected_lxor, H, Z.lxor_nilpotent.
Qed.

Lemma unreflect_succ n a :
  0 <= a -> unreflect (S n) a = Z.lxor (unreflect n a) (Z.shiftr a (Z.of_nat n)).
Proof.
  intros Ha. induction n as [|n IH].
  - simpl. by rewrite Z.shiftr_0_l, Z.lxor_0_r, Z.shiftr_0_r, Z.lxor_0_l.
  - change (unreflect (S (S n)) a) with (Z.lxor a (Z.shiftr (unreflect (S n) a) 1)).
    rewrite IH at 1. rewrite Z.shiftr_lxor, Z.shiftr_shiftr by lia.
    rewrite <- Z.lxor_assoc. cbn [unreflect]. do 2 f_equal. lia.
Qed.

Lemma unreflect_range n a k : 0 <= k -> 0 <= a < 2 ^ k -> 0 <= unreflect n a < 2 ^ k.
Proof.
  intros Hk Ha. induction n as [|n IH]; simpl.
  - lia.
  - apply lxor_range; [done | done | by apply shiftr1_range].
Qed.

Lemma reflected_unreflect k a :
  0 <= a < 2 ^ Z.of_nat k -> reflected (unreflect k a) = a.
Proof.
  intros Ha.
  assert (unreflect (S k) a = unreflect k a) as Hfix.
  { rewrite unreflect_succ by lia.
    rewrite (Z.shiftr_div_pow2 a), Z.div_small by lia. apply Z.lxor_0_r. }
  cbn [unreflect] in Hfix. unfold reflected. rewrite <- Hfix at 1.
  by rewrite Z.lxor_assoc, Z.lxor_nilpotent, Z.lxor_0_r.
Qed.

Lemma digits_fold s : forall acc,
  fold_left (fun acc c => 2 * acc + Z.of_N (c - 48)) s acc
  = acc * 2 ^ Z.of_nat (length s) + digitsValue s.
Proof.
  unfold digitsValue. induction s as [|c s IH]; intros acc.
  - simpl. lia.
  - cbn [fold_left length]. rewrite IH, (IH (2 * 0 + _)).
    rewrite Nat2Z.inj_succ, Z.pow_succ_r by lia. lia.
Qed.

Lemma digitsValue_app s1 s2 :
  digitsValue (s1 ++ s2) = digitsValue s1 * 2 ^ Z.of_nat (length s2) + digitsValue s2.
Proof. unfold digitsValue at 1. rewrite fold_left_app. apply digits_fold. Qed.

Lemma digitsValue_binary p : digitsValue (binary p) = Z.pos p.
Proof.
  induction p as [p IH | p IH |]; [| | done]; cbn [binary]; rewrite digitsValue_app, IH.
  - change (digitsValue [49%N]) with 1. change (2 ^ Z.of_nat (length [49%N])) with 2. lia.
  - change (digitsValue [48%N]) with 0. change (2 ^ Z.of_nat (length [48%N])) with 2. lia.
Qed.

Lemma digitsValue_toString2 z : 0 <= z -> digitsValue (toString2 z) = z.
Proof. intros Hz. destruct z; [done | apply digitsValue_binary | lia]. Qed.

Lemma digitsValue_zeros n : digitsValue (repeat 48%N n) = 0.
Proof.
  induction n as [|n IH]; [done |].
  change (repeat 48%N (S n)) with ([48%N] ++ repeat 48%N n).
  rewrite digitsValue_app, IH. done.
Qed.

Lemma digitsValue_padStart n s : digitsValue (padStart n s) = digitsValue s.
Proof. unfold padStart. rewrite digitsValue_app, digitsValue_zeros. lia. Qed.

Lemma binary_length_ge p : (1 <= length (binary p))%nat.
Proof. destruct p; simpl; rewrite ?length_app; simpl; lia. Qed.

Lemma binary_lower p : 2 ^ (Z.of_nat (length (binary p)) - 1) <= Z.pos p.
Proof.
  induction p as [p IH | p IH |]; [| | done];
    cbn [binary]; rewrite length_app; simpl length;
    pose proof (binary_length_ge p);
    replace (Z.of_nat (length (binary p) + 1) - 1)
      with (Z.succ (Z.of_nat (length (binary p)) - 1)) by lia;
    rewrite Z.pow_succ_r by lia; lia.
Qed.

Lemma toString2_length z k :
  0 <= z < 2 ^ Z.of_nat k -> (length (toString2 z) <= Nat.max k 1)%nat.
Proof.
  intros Hz. destruct z as [|p|p]; [simpl; lia | | lia].
  simpl. pose proof (binary_lower p) as Hlow.
  assert (Z.of_nat (length (binary p)) - 1 < Z.of_nat k); [| lia].
  apply (Z.pow_lt_mono_r_iff 2); lia.
Qed.

Lemma toString2_nonempty z : toString2 z <> [].
Proof. destruct z as [|p|p]; [done | | done]. simpl. by destruct p; simpl; try destruct (binary p). Qed.

Lemma padStart_length n s : length (padStart n s) = Nat.max n (length s).
Proof. unfold padStart. rewrite length_app, repeat_length. lia. Qed.

Lemma parseInt2_bits s :
  s <> [] -> forallb isBit s = true -> parseInt2 s = Some (digitsValue s).
Proof.
  intros Hne Hbits. destruct s as [|c s]; [done |].
  assert (takeWhile isBit (c :: s) = c :: s) as Htw.
  { rewrite <- (app_nil_r (c :: s)) at 1. by apply takeWhile_run. }
  simpl in Hbits. apply andb_true_iff in Hbits as [Hc _].
  unfold isBit in Hc.
  apply orb_true_iff in Hc as [Hc | Hc]; apply N.eqb_eq in Hc; subst c; unfold parseInt2.
  - change (dropWhile isSpace (48%N :: s)) with (48%N :: s). cbv beta iota zeta.
    rewrite Htw. f_equal. lia.
  - change (dropWhile isSpace (49%N :: s)) with (49%N :: s). cbv beta iota zeta.
    rewrite Htw. f_equal. lia.
Qed.

Section Labels.
Variables (size : nat) (i : nat).
Hypothesis Hsize : (size <= 31)%nat.
Hypothesis Hi : Z.of_nat i < 2 ^ Z.of_nat size.

Lemma gray_label_range : 0 <= gray (Z.of_nat i) < 2 ^ Z.of_nat size.
Proof.
  pose proof (pow2_le_31 (Z.of_nat size) ltac:(lia)).
  rewrite gray_reflected by lia. apply reflected_range; lia.
Qed.

Lemma grayLabel_bits : forallb isBit (grayLabel size i) = true.
Proof. apply padStart_bits. apply gray_label_range. Qed.

Lemma grayLabel_value : digitsValue (grayLabel size i) = gray (Z.of_nat i).
Proof.
  unfold grayLabel. rewrite digitsValue_padStart.
  apply digitsValue_toString2. apply gray_label_range.
Qed.

Lemma grayLabel_length : length (grayLabel size i) = Nat.max size 1.
Proof.
  unfold grayLabel. rewrite padStart_length.
  pose proof (toString2_length _ _ gray_label_range).
  pose proof (toString2_nonempty (gray (Z.of_nat i))).
  destruct (toString2 (gray (Z.of_nat i))); [done |]. simpl in *. lia.
Qed.
End Labels.

(** The index a cell reads: the row code followed by the column code. *)
Lemma karnaugh_index v h i j :
  (v <= h <= 31)%nat ->
  Z.of_nat i < 2 ^ Z.of_nat v -> Z.of_nat j < 2 ^ Z.of_nat h ->
  parseInt2 (grayLabel v i ++ grayLabel h j)
  = Some (gray (Z.of_nat i) * 2 ^ Z.of_nat h + gray (Z.of_nat j)).
Proof.
  intros Hvh Hi Hj.
  pose proof (grayLabel_length v i ltac:(lia) Hi) as Hlen1.
  pose proof (grayLabel_length h j ltac:(lia) Hj) as Hlen2.
  rewrite parseInt2_bits.
  - rewrite digitsValue_app, !grayLabel_value, Hlen2 by lia. f_equal.
    destruct h as [|h]; [| by rewrite Nat.max_l by lia].
    assert (v = 0%nat) as -> by lia.
    assert (i = 0%nat) as -> by (change (2 ^ Z.of_nat 0) with 1 in Hi; lia).
    done.
  - destruct (grayLabel v i); [simpl in Hlen1; lia | done].
  - rewrite forallb_app, !grayLabel_bits by lia. done.
Qed.

Lemma pow2_nat_Z k : Z.of_nat (2 ^ k) = 2 ^ Z.of_nat k.
Proof. by rewrite Nat2Z.inj_pow. Qed.

Lemma lookup_map_seq {A : Type} (f : nat -> A) n i : forall s,
  (i < n)%nat -> map f (seq s n) !! i = Some (f (s + i)%nat).
Proof.
  revert i. induction n as [|n IH]; intros i s Hi; [lia |].
  destruct i as [|i]; simpl.
  - by rewrite Nat.add_0_r.
  - rewrite IH by lia. f_equal. f_equal. lia.
Qed.

Lemma index_lookup (arr : list value) (i : nat) v :
  arr !! i = Some v -> index arr (Z.of_nat i) = v.
Proof.
  intros H. unfold index. destruct (Z.ltb_spec (Z.of_nat i) 0); [lia |].
  by rewrite Nat2Z.id, H.
Qed.

(** The cell in row [i] and column [j], the headings not counted. *)
Lemma karnaugh_cell outputs variables i j :
  (i < 2 ^ (length variables / 2))%nat ->
  (j < 2 ^ (length variables - length variables / 2))%nat ->
  exists row,
    karnaughRows outputs variables !! S i = Some row
    /\ row !! S j
       = Some (digitCell (karnaughDigit outputs
                 (grayLabel (length variables / 2) i
                  ++ grayLabel (length variables - length variables / 2) j))).
Proof.
  intros Hi Hj. unfold karnaughRows. cbv zeta. eexists. split.
  - change ((?x :: ?l) !! S i) with (l !! i). by rewrite lookup_map_seq.
  - change ((?x :: ?l) !! S j) with (l !! j). by rewrite lookup_map_seq.
Qed.

(** Every index below 2^(v+h) is the code of one row followed by the code
    of one column. *)
Lemma gray_pair v h idx :
  (v <= 31)%nat -> (h <= 31)%nat ->
  0 <= idx < 2 ^ Z.of_nat (v + h) ->
  exists i j,
    Z.of_nat i < 2 ^ Z.of_nat v /\ Z.of_nat j < 2 ^ Z.of_nat h
    /\ gray (Z.of_nat i) * 2 ^ Z.of_nat h + gray (Z.of_nat j) = idx
    /\ forall i' j',
         Z.of_nat i' < 2 ^ Z.of_nat v -> Z.of_nat j' < 2 ^ Z.of_nat h ->
         gray (Z.of_nat i') * 2 ^ Z.of_nat h + gray (Z.of_nat j') = idx ->
         i' = i /\ j' = j.
Proof.
  intros Hv Hh Hidx.
  rewrite Nat2Z.inj_add, Z.pow_add_r in Hidx by lia.
  pose proof (pow2_le_31 (Z.of_nat v) ltac:(lia)) as Hpv.
  pose proof (pow2_le_31 (Z.of_nat h) ltac:(lia)) as Hph.
  assert (0 < 2 ^ Z.of_nat v) as Hv0 by (apply Z.pow_pos_nonneg; lia).
  assert (0 < 2 ^ Z.of_nat h) as Hh0 by (apply Z.pow_pos_nonneg; lia).
  set (a := idx / 2 ^ Z.of_nat h). set (b := idx mod 2 ^ Z.of_nat h).
  assert (0 <= a < 2 ^ Z.of_nat v) as Ha.
  { unfold a. split; [apply Z.div_pos; lia |]. apply Z.div_lt_upper_bound; lia. }
  assert (0 <= b < 2 ^ Z.of_nat h) as Hb by (apply Z.mod_pos_bound; lia).
  assert (idx = a * 2 ^ Z.of_nat h + b) as Hsplit.
  { unfold a, b. rewrite Z.mul_comm. apply Z.div_mod. lia. }
  pose proof (unreflect_range v a (Z.of_nat v) ltac:(lia) Ha) as Hua.
  pose proof (unreflect_range h b (Z.of_nat h) ltac:(lia) Hb) as Hub.
  exists (Z.to_nat (unreflect v a)), (Z.to_nat (unreflect h b)).
  rewrite !Z2Nat.id by lia. rewrite !gray_reflected by lia.
  rewrite !reflected_unreflect by lia.
  split; [lia |]. split; [lia |]. split; [lia |].
  intros i' j' Hi' Hj' Heq.
  rewrite !gray_reflected in Heq by lia.
  pose proof (reflected_range (Z.of_nat i') (Z.of_nat v) ltac:(lia) ltac:(lia)) as Hri.
  pose proof (reflected_range (Z.of_nat j') (Z.of_nat h) ltac:(lia) ltac:(lia)) as Hrj.
  assert (reflected (Z.of_nat i') = a /\ reflected (Z.of_nat j') = b) as [Hia Hjb].
  { unfold a, b. split.
    - apply (Z.div_unique idx _ _ (reflected (Z.of_nat j'))); lia.
    - apply (Z.mod_unique idx _ (reflected (Z.of_nat i'))); lia. }
  split.
  - apply Nat2Z.inj. rewrite Z2Nat.id by lia.
    apply reflected_inj; [lia | lia |]. by rewrite reflected_unreflect.
  - apply Nat2Z.inj. rewrite Z2Nat.id by lia.
    apply reflected_inj; [lia | lia |]. by rewrite reflected_unreflect.
Qed.

(** C8. For a truth table [outputs] of 2^n rows, n the number of
    variables (a JavaScript array has fewer than 2^32 elements), every
    row index [idx] is addressed by exactly one cell of the Karnaugh map:
    there is one row [i] and one column [j] of the map whose Gray-code
    labels, written one after the other and read as a binary number, give
    [idx], and the cell there shows [outputs[idx]]: its text is that
    output written as a string, and it is highlighted exactly when the
    output is the string ["1"]. *)
Theorem karnaugh_addresses_each_row_once (outputs variables : list value) (idx : nat) :
  length outputs = (2 ^ length variables)%nat ->
  Z.of_nat (length outputs) < 2 ^ 32 ->
  (idx < length outputs)%nat ->
  exists i j digit,
    (i < 2 ^ (length variables / 2))%nat
    /\ (j < 2 ^ (length variables - length variables / 2))%nat
    /\ parseInt2 (grayLabel (length variables / 2) i
                  ++ grayLabel (length variables - length variables / 2) j)
       = Some (Z.of_nat idx)
    /\ outputs !! idx = Some digit
    /\ (exists row c,
          karnaughRows outputs variables !! S i = Some row
          /\ row !! S j = Some c
          /\ text c = ToString digit
          /\ (highlighted c = true <-> digit = VStr (lit "1")))
    /\ forall i' j',
         (i' < 2 ^ (length variables / 2))%nat ->
         (j' < 2 ^ (length variables - length variables / 2))%nat ->
         parseInt2 (grayLabel (length variables / 2) i'
                    ++ grayLabel (length variables - length variables / 2) j')
         = Some (Z.of_nat idx) ->
         i' = i /\ j' = j.
Proof.
  intros Hlen Harr Hidx.
  set (n := length variables) in *. set (v := (n / 2)%nat). set (h := (n - v)%nat).
  assert (n < 32)%nat as Hn.
  { rewrite Hlen, pow2_nat_Z in Harr.
    apply (Z.pow_lt_mono_r_iff 2) in Harr; lia. }
  assert (v <= h)%nat as Hvh.
  { unfold h, v. pose proof (Nat.Div0.mul_div_le n 2). lia. }
  assert (v + h = n)%nat as Hsum by (unfold h, v in *; lia).
  destruct (gray_pair v h (Z.of_nat idx)) as (i & j & Hi & Hj & Hval & Huniq); [lia | lia | |].
  { rewrite Hsum, <- pow2_nat_Z. lia. }
  destruct (lookup_lt_is_Some_2 outputs idx Hidx) as [digit Hdigit].
  assert (forall k m, Z.of_nat m < 2 ^ Z.of_nat k <-> (m < 2 ^ k)%nat) as Hconv.
  { intros k m. rewrite <- pow2_nat_Z. lia. }
  exists i, j, digit.
  split; [by apply Hconv |]. split; [by apply Hconv |].
  assert (parseInt2 (grayLabel v i ++ grayLabel h j) = Some (Z.of_nat idx)) as Hparse.
  { rewrite karnaugh_index by (done || lia). by rewrite Hval. }
  split; [done |]. split; [done |]. split.
  - destruct (karnaugh_cell outputs variables i j) as (row & Hrow & Hcell);
      [by apply Hconv | by apply Hconv |].
    exists row, (digitCell digit). split; [done |]. split.
    { rewrite Hcell. fold n v h.
      unfold karnaughDigit. rewrite Hparse. by rewrite (index_lookup _ _ _ Hdigit). }
    split; [reflexivity |]. cbn [digitCell highlighted]. unfold strict_eq.
    apply bool_decide_eq_true.
  - intros i' j' Hi' Hj' Hparse'.
    apply Hconv in Hi', Hj'.
    rewrite karnaugh_index in Hparse' by (done || lia).
    injection Hparse' as Hval'. by apply Huniq.
Qed.

Lemma karnaugh_addresses_each_row_once_witness :
  exists i j digit,
    (i < 2 ^ (2 / 2))%nat /\ (j < 2 ^ (2 - 2 / 2))%nat
    /\ parseInt2 (grayLabel (2 / 2) i ++ grayLabel (2 - 2 / 2) j) = Some (Z.of_nat 2)
    /\ [VStr (lit "0"); VStr (lit "0"); VStr (lit "0"); VStr (lit "1")] !! 2%nat = Some digit
    /\ (exists row c,
          karnaughRows [VStr (lit "0"); VStr (lit "0"); VStr (lit "0"); VStr (lit "1")]
                       [VStr (lit "A"); VStr (lit "B")] !! S i = Some row
          /\ row !! S j = Some c
          /\ text c = ToString digit
          /\ (highlighted c = true <-> digit = VStr (lit "1")))
    /\ forall i' j',
         (i' < 2 ^ (2 / 2))%nat -> (j' < 2 ^ (2 - 2 / 2))%nat ->
         parseInt2 (grayLabel (2 / 2) i' ++ grayLabel (2 - 2 / 2) j') = Some (Z.of_nat 2) ->
         i' = i /\ j' = j.
Proof.
  apply (karnaugh_addresses_each_row_once
           [VStr (lit "0"); VStr (lit "0"); VStr (lit "0"); VStr (lit "1")]
           [VStr (lit "A"); VStr (lit "B")] 2).
  - reflexivity.
  - simpl. lia.
  - simpl. lia.
Defined.

(** * Further properties *)

#[local] Close Scope Z_scope.

(** ** The tokenizer *)

Lemma takeWhile_all p s : forallb p (takeWhile p s) = true.
Proof.
  induction s as [|c s IH]; simpl; [done |].
  destruct (p c) eqn:E; simpl; [by rewrite E | done].
Qed.

Lemma takeWhile_take p s : take (length (takeWhile p s)) s = takeWhile p s.
Proof.
  induction s as [|c s IH]; simpl; [done |].
  destruct (p c); simpl; [by rewrite IH | done].
Qed.

Lemma matchAll_shapes s : forall skip, forallb tokenShape (matchAll skip s) = true.
Proof.
  induction s as [|c s IH]; intros skip; simpl; [done |].
  destruct skip as [|k]; [| apply IH].
  destruct (isLetter c) eqn:EL.
  { cbn [forallb]. rewrite IH, andb_true_r.
    unfold tokenShape. change (forallb isLetter (c :: takeWhile isLetter s))
      with (isLetter c && forallb isLetter (takeWhile isLetter s)).
    by rewrite EL, takeWhile_all. }
  destruct (isBit c) eqn:EB.
  { cbn [forallb]. rewrite IH, andb_true_r.
    unfold tokenShape. change (forallb isBit (c :: takeWhile isBit s))
      with (isBit c && forallb isBit (takeWhile isBit s)).
    rewrite EB, takeWhile_all. apply orb_true_iff. left. apply orb_true_r. }
  destruct (isWord c) eqn:EW; simpl; [apply IH |].
  rewrite IH, EW, EL, EB. done.
Qed.

Lemma filter_all (p : N -> bool) s : (forall c, In c s -> p c = true) -> List.filter p s = s.
Proof.
  induction s as [|c s IH]; intros H; simpl; [done |].
  rewrite (H c) by (by left). f_equal. apply IH. intros d Hd. apply H. by right.
Qed.

Lemma filter_run p q s :
  (forall c, p c = true -> q c = true) ->
  List.filter q s
  = takeWhile p s ++ List.filter q (drop (length (takeWhile p s)) s).
Proof.
  intros Hpq. rewrite <- (take_drop (length (takeWhile p s)) s) at 1.
  rewrite List.filter_app, takeWhile_take. f_equal.
  apply filter_all. intros c Hc. apply Hpq.
  pose proof (takeWhile_all p s) as Hall. rewrite forallb_forall in Hall. by apply Hall.
Qed.

Lemma matchAll_concat s : forall skip,
  concat (matchAll skip s) = List.filter tokenizable (drop skip s).
Proof.
  induction s as [|c s IH]; intros skip; [by destruct skip |].
  destruct skip as [|k]; [| apply IH]. simpl.
  unfold tokenizable at 1.
  destruct (isLetter c) eqn:EL.
  { simpl. f_equal. rewrite Nat.sub_0_r, IH. symmetry. apply filter_run.
    intros d Hd. unfold tokenizable. by rewrite Hd. }
  destruct (isBit c) eqn:EB.
  { simpl. f_equal. rewrite Nat.sub_0_r, IH. symmetry. apply filter_run.
    intros d Hd. unfold tokenizable. rewrite Hd. apply orb_true_iff. left. apply orb_true_r. }
  destruct (isWord c) eqn:EW; simpl; by rewrite IH.
Qed.

(** X1. Every token that [tokenize] returns is a non-empty run of letters,
    a non-empty run of the digits 0 and 1, or a single code unit that is
    no word character, and there is at least one token. *)
Theorem tokenize_token_shapes (exp : str) :
  match tokenize exp with
  | Some tokens => tokens <> [] /\ forallb tokenShape tokens = true
  | None => True
  end.
Proof.
  unfold tokenize. pose proof (matchAll_shapes (normalize exp) 0) as H.
  destruct (matchAll 0 (normalize exp)); done.
Qed.

(** X2. The tokens, put together again, are the normalized text without
    the code units no alternative of [tokenRegex] matches (the digits 2 to
    9 and the underscore): nothing else is lost and nothing is added or
    reordered. *)
Theorem tokenize_keeps_text (exp : str) :
  concat (default [] (tokenize exp)) = List.filter tokenizable (normalize exp).
Proof.
  pose proof (matchAll_concat (normalize exp) 0) as H. rewrite drop_0 in H. rewrite <- H.
  unfold tokenize. by destruct (matchAll 0 (normalize exp)).
Qed.

(** ** The normalizer *)

Lemma get_In {A : Type} (tbl : list (str * A)) k v : get tbl k = Some v -> In v (map snd tbl).
Proof.
  induction tbl as [|[k' v'] tbl IH]; simpl; [done |].
  destruct (str_eqb k k'); [intros [= ->]; by left | intros H; right; by apply IH].
Qed.

(** What [replace] can put in: one of the six symbols, or "undefined". *)
Lemma replacement_cases m :
  In (replacement m) [[c_and]; [c_or]; [c_not]; [c_xor]; [c_imply]; [c_xnor]; lit "undefined"].
Proof.
  unfold replacement. destruct (get otherSymbols m) as [sym|] eqn:E.
  - apply get_In in E. simpl in E.
    repeat (destruct E as [<- | E]; [simpl; tauto |]). destruct E.
  - simpl. tauto.
Qed.

Lemma replaceAll_Forall (P : N -> Prop) :
  (forall m, Forall P (replacement m)) ->
  forall s skip, Forall P s -> Forall P (replaceAll skip s).
Proof.
  intros Hrep. induction s as [|c s IH]; intros skip Hs; [done |].
  apply Forall_cons in Hs as [Hc Hs].
  destruct skip as [|k]; [| by apply IH].
  cbn [replaceAll]. destruct (matchKeys (map fst otherSymbols) (c :: s)).
  - apply Forall_app. split; [apply Hrep | by apply IH].
  - constructor; [done | by apply IH].
Qed.

Lemma squeeze_no_space exp : Forall (fun c => isSpace c = false) (squeeze exp).
Proof.
  unfold squeeze. induction exp as [|c exp IH]; simpl; [done |].
  destruct (isSpace c) eqn:E; simpl; [done | by constructor].
Qed.

Lemma normalize_no_space exp : Forall (fun c => isSpace c = false) (normalize exp).
Proof.
  unfold normalize. apply replaceAll_Forall; [| apply squeeze_no_space].
  intros m. pose proof (replacement_cases m) as H.
  repeat (destruct H as [<- | H]; [repeat constructor |]). destruct H.
Qed.

Lemma squeeze_id s : Forall (fun c => isSpace c = false) s -> squeeze s = s.
Proof.
  unfold squeeze. induction 1 as [|c s Hc Hs IH]; simpl; [done |].
  by rewrite Hc, IH.
Qed.

Lemma replaceAll_settled s : settled s -> replaceAll 0 s = s.
Proof.
  induction s as [|c s IH]; [done |]. intros [Hnone Hs].
  cbn [replaceAll]. rewrite Hnone. by rewrite IH.
Qed.

Lemma replacement_starts m :
  exists r0 r, replacement m = r0 :: r /\ startsReplacement (canon r0) = true.
Proof.
  pose proof (replacement_cases m) as H.
  repeat (destruct H as [<- | H]; [eexists _, _; split; reflexivity |]). destruct H.
Qed.

(** No key goes on after a code unit a replacement starts with. *)
Lemma matchKey_start key : forall s m,
  forallb (fun p => negb (startsReplacement (canon p))) key = true ->
  matchKey key (replaceAll 0 s) = Some m -> exists m', matchKey key s = Some m'.
Proof.
  induction key as [|p key IH]; intros s m Hkey Hm; [by eexists |].
  simpl in Hkey. apply andb_true_iff in Hkey as [Hp Hkey].
  destruct s as [|c s]; [done |].
  cbn [replaceAll] in Hm.
  destruct (matchKeys (map fst otherSymbols) (c :: s)) as [mm|] eqn:E.
  - exfalso. destruct (replacement_starts mm) as (r0 & r & Hr & Hr0).
    rewrite Hr in Hm. simpl in Hm.
    destruct (N.eqb_spec (canon p) (canon r0)) as [Heq | Hne]; [| done].
    rewrite Heq, Hr0 in Hp. done.
  - simpl in Hm |- *. destruct (canon p =? canon c); [| done].
    destruct (matchKey key (replaceAll 0 s)) as [m1|] eqn:E1; [| done].
    destruct (IH s m1 Hkey E1) as [m' ->]. by eexists.
Qed.

Lemma matchKeys_start keys : forall s,
  forallb (forallb (fun p => negb (startsReplacement (canon p)))) keys = true ->
  matchKeys keys s = None -> matchKeys keys (replaceAll 0 s) = None.
Proof.
  induction keys as [|key keys IH]; intros s Hkeys Hs; [done |].
  simpl in Hkeys. apply andb_true_iff in Hkeys as [Hkey Hkeys].
  simpl in Hs |- *.
  destruct (matchKey key s) eqn:E; [done |].
  destruct (matchKey key (replaceAll 0 s)) as [m|] eqn:E'.
  - destruct (matchKey_start key s m Hkey E') as [m' Hm']. congruence.
  - by apply IH.
Qed.

Lemma settled_app_replacement r s :
  In r [[c_and]; [c_or]; [c_not]; [c_xor]; [c_imply]; [c_xnor]; lit "undefined"] ->
  settled s -> settled (r ++ s).
Proof.
  intros Hr Hs.
  repeat (destruct Hr as [<- | Hr]; [simpl; repeat split; done |]). destruct Hr.
Qed.

Lemma replaceAll_is_settled s : forall skip, settled (replaceAll skip s).
Proof.
  induction s as [|c s IH]; intros skip; [done |].
  destruct skip as [|k]; [| apply IH].
  cbn [replaceAll].
  destruct (matchKeys (map fst otherSymbols) (c :: s)) as [m|] eqn:E.
  - apply settled_app_replacement; [apply replacement_cases | apply IH].
  - split; [| apply IH].
    pose proof (matchKeys_start (map fst otherSymbols) (c :: s) eq_refl E) as H.
    cbn [replaceAll] in H. by rewrite E in H.
Qed.

(** X3. The normalized text holds no white space, and normalizing it
    again changes nothing. *)
Theorem normalize_idempotent (exp : str) :
  forallb (fun c => negb (isSpace c)) (normalize exp) = true
  /\ normalize (normalize exp) = normalize exp.
Proof.
  pose proof (normalize_no_space exp) as Hsp. split.
  - apply forallb_forall. intros c Hc. rewrite Forall_forall in Hsp.
    rewrite Hsp; [done |]. by apply list_elem_of_In.
  - unfold normalize at 1. rewrite (squeeze_id _ Hsp).
    apply replaceAll_settled. apply replaceAll_is_settled.
Qed.

(** ** The inputs *)

Lemma getInputs_length len : length (getInputs len) = (2 ^ len)%nat.
Proof. unfold getInputs. by rewrite length_map, length_seq. Qed.

(** X4. [getInputs n] has 2^n rows. Row [i] is the number [i] written
    in binary, most significant digit first, one digit per element; it has
    [n] elements, except that for [n = 0] the only row has the one element
    '0'. *)
Theorem getInputs_rows (len i : nat) :
  (i < 2 ^ len)%nat ->
  length (getInputs len) = (2 ^ len)%nat
  /\ exists row,
       getInputs len !! i = Some (map (fun c => VStr [c]) row)
       /\ length row = Nat.max len 1
       /\ forallb isBit row = true
       /\ digitsValue row = Z.of_nat i.
Proof.
  intros Hi. split; [apply getInputs_length |].
  exists (padStart len (toString2 (Z.of_nat i))). split; [| split; [| split]].
  - unfold getInputs. by rewrite lookup_map_seq.
  - rewrite padStart_length.
    assert (0 <= Z.of_nat i < 2 ^ Z.of_nat len)%Z as Hz by (rewrite <- pow2_nat_Z; lia).
    pose proof (toString2_length _ _ Hz). pose proof (toString2_nonempty (Z.of_nat i)).
    destruct (toString2 (Z.of_nat i)); [done |]. simpl in *. lia.
  - apply padStart_bits. lia.
  - rewrite digitsValue_padStart. apply digitsValue_toString2. lia.
Qed.

Lemma getInputs_rows_witness :
  length (getInputs 3) = (2 ^ 3)%nat
  /\ exists row,
       getInputs 3 !! 5%nat = Some (map (fun c => VStr [c]) row)
       /\ length row = Nat.max 3 1
       /\ forallb isBit row = true
       /\ digitsValue row = Z.of_nat 5.
Proof. apply (getInputs_rows 3 5). simpl. lia. Defined.

(** ** The outputs *)

Lemma letterless_plain v : letterless v -> plain v.
Proof. intros [-> | (s & -> & Hs)]; [done | by apply no_letter_plain]. Qed.

Lemma evaluated_plain v : evaluated v -> plain v.
Proof.
  intros [[b ->] | [-> | (s & -> & Hs & _)]]; [apply plain_bool | done | by apply no_letter_plain].
Qed.

Lemma operations1_evaluated k f a : get operations1 k = Some f -> evaluated (f a).
Proof.
  unfold operations1. cbn [get]. destruct (str_eqb k [c_not]); [| done].
  intros [= <-]. left. by eexists.
Qed.

Lemma operations2_evaluated k f a b :
  get operations2 k = Some f -> evaluated a -> evaluated b -> evaluated (f a b).
Proof.
  unfold operations2. cbn [get]. intros Hf Ha Hb.
  repeat match type of Hf with
         | (if ?c then _ else _) = _ => destruct c; [injection Hf as <- |]
         end; try done;
    unfold js_and, js_or, js_not;
    repeat match goal with |- context [truthy ?x] => destruct (truthy x) end;
    auto; left; by eexists.
Qed.

Lemma conversion_letterless v c :
  letterless v -> get conversion (ToString v) = Some c -> exists b, c = VBool b.
Proof.
  intros Hv. unfold conversion. cbn [get].
  destruct (str_eqb (ToString v) (lit "0")); [intros [= <-]; by eexists |].
  destruct (str_eqb (ToString v) (lit "1")); [intros [= <-]; by eexists |].
  destruct Hv as [-> | (s & -> & Hs)]; [done |]. simpl.
  destruct (str_eqb s (lit "false")) eqn:E1.
  { apply str_eqb_eq in E1. subst s. done. }
  destruct (str_eqb s (lit "true")) eqn:E2; [| done].
  apply str_eqb_eq in E2. subst s. done.
Qed.

Lemma evaluate_fuel_evaluated n : forall (h : store) r a v h',
  h !! r = Some a -> (length a < n)%nat -> Forall letterless a ->
  evaluate_fuel n r h = Ret (v, h') -> evaluated v.
Proof.
  induction n as [|n IH]; intros h r a v h' Hr Hlen Ha Hev; [lia |].
  cbn [evaluate_fuel] in Hev. rewrite (bind_Ret _ _ _ _ _ (pop_Ret _ _ _ Hr)) in Hev.
  destruct (decide (a = [])) as [-> | Hne].
  { injection Hev as <- _. right. by left. }
  destruct (exists_last Hne) as [a0 [x ->]].
  rewrite last_last, removelast_last in Hev.
  apply Forall_app in Ha as [Ha0 Hx]. apply Forall_inv in Hx.
  rewrite length_app in Hlen. simpl in Hlen.
  pose proof (lookup_insert_same h r _ a0 Hr) as Hr0.
  rewrite (letterless_plain x Hx : inherited (ToString x) = false) in Hev.
  assert (Forall plain a0) as Hp0 by (eapply Forall_impl; [done | apply letterless_plain]).
  destruct (get operations1 (ToString x)) as [f|] eqn:E1.
  { destruct (evaluate_fuel_Ret n _ r a0 Hr0 ltac:(lia) Hp0) as (v1 & a1 & c1 & Hev1 & -> & _ & _).
    rewrite (bind_Ret _ _ _ _ _ Hev1) in Hev. injection Hev as <- _.
    by eapply operations1_evaluated. }
  destruct (get operations2 (ToString x)) as [f|] eqn:E2.
  { destruct (evaluate_fuel_Ret n _ r a0 Hr0 ltac:(lia) Hp0) as (v1 & a1 & c1 & Hev1 & -> & _ & _).
    pose proof (IH _ _ _ _ _ Hr0 ltac:(lia) Ha0 Hev1) as Hv1.
    rewrite (bind_Ret _ _ _ _ _ Hev1), list_insert_insert_eq in Hev.
    apply Forall_app in Ha0 as [Ha1 _]. apply Forall_app in Hp0 as [Hp1 _].
    rewrite length_app in Hlen.
    pose proof (lookup_insert_same h r _ a1 Hr) as Hr1.
    destruct (evaluate_fuel_Ret n _ r a1 Hr1 ltac:(lia) Hp1) as (v2 & a2 & c2 & Hev2 & -> & _ & _).
    pose proof (IH _ _ _ _ _ Hr1 ltac:(lia) Ha1 Hev2) as Hv2.
    rewrite (bind_Ret _ _ _ _ _ Hev2) in Hev. injection Hev as <- _.
    by eapply operations2_evaluated. }
  destruct (get conversion (ToString x)) as [c|] eqn:E3.
  - injection Hev as <- _. left. by eapply conversion_letterless.
  - injection Hev as <- _. destruct Hx as [-> | (s & -> & Hs)]; [right; by left |].
    right. right. by exists s.
Qed.

Lemma convert_evaluated v out :
  evaluated v -> convert v = Ret out -> outputDigit out = true.
Proof.
  intros Hv. unfold convert.
  rewrite (evaluated_plain v Hv : inherited (ToString v) = false).
  destruct Hv as [[b ->] | [-> | (s & -> & Hs & Hc)]].
  - destruct b; by intros [= <-].
  - by intros [= <-].
  - cbn [ToString]. rewrite Hc. by intros [= <-].
Qed.

Lemma index_letterless input n : Forall letterless input -> letterless (index input n).
Proof.
  intros H. unfold index. destruct (n <? 0)%Z; [by left |].
  destruct (input !! Z.to_nat n) as [v|] eqn:E; simpl; [| by left].
  by eapply Forall_lookup_1.
Qed.

Lemma substitute_letterless input tokens : forall n,
  Forall letterless input -> Forall letterless (substitute input n tokens).
Proof.
  induction tokens as [|token tokens IH]; intros n H; simpl; [done |].
  destruct (strRegex (ToString token)) eqn:E; constructor; auto.
  - by apply index_letterless.
  - destruct token as [|b|s]; [done | by destruct b | right; by exists s].
Qed.

Lemma getOutputs_digits inputs : forall (h : store) exp tokens,
  h !! exp = Some tokens -> Forall (Forall letterless) inputs ->
  exists outputs copies,
    getOutputs exp inputs h = Ret (outputs, h ++ copies)
    /\ length outputs = length inputs
    /\ forallb outputDigit outputs = true.
Proof.
  induction inputs as [|input inputs IH]; intros h exp tokens Hexp Hin.
  - exists [], []. rewrite app_nil_r. by repeat split.
  - apply Forall_cons in Hin as [Hinput Hin].
    cbn [getOutputs].
    rewrite (bind_Ret _ _ _ _ _ (read_Ret _ _ _ Hexp)).
    rewrite (bind_Ret _ _ _ _ _ (new_Ret _ _)).
    pose proof (substitute_letterless input tokens (-1) Hinput) as Hsub.
    pose proof (list_lookup_middle h [] (substitute input (-1) tokens) _ eq_refl) as Hnew.
    destruct (evaluate_Ret (h ++ [substitute input (-1) tokens]) (length h) _ Hnew)
      as (v & left & consumed & Hev & _ & _ & Hv).
    { eapply Forall_impl; [done | apply letterless_plain]. }
    assert (evaluated v) as Hv'.
    { unfold evaluate in Hev. rewrite (bind_Ret _ _ _ _ _ (read_Ret _ _ _ Hnew)) in Hev.
      eapply evaluate_fuel_evaluated; [exact Hnew | | done | exact Hev]. lia. }
    rewrite (bind_Ret _ _ _ _ _ Hev), insert_last.
    destruct (convert_Ret v Hv) as [out Hout].
    rewrite (bind_Ret _ _ _ _ _ (lift_Ret _ _ _ Hout)).
    destruct (IH (h ++ [left]) exp tokens) as (outputs & copies & Hget & Hlen & Hdig);
      [by apply lookup_app_l_Some | done |].
    rewrite (bind_Ret _ _ _ _ _ Hget).
    exists (out :: outputs), (left :: copies). repeat split.
    + unfold ret. by rewrite <- app_assoc.
    + simpl. by rewrite Hlen.
    + simpl. by rewrite (convert_evaluated v out Hv' Hout), Hdig.
Qed.

Lemma getInputs_letterless len : Forall (Forall letterless) (getInputs len).
Proof.
  unfold getInputs. apply Forall_map, Forall_forall. intros i _.
  pose proof (padStart_bits len (Z.of_nat i) ltac:(lia)) as H.
  induction (padStart len (toString2 (Z.of_nat i))) as [|c s IH]; simpl in *; [done |].
  apply andb_true_iff in H as [Hc Hs]. constructor; [| by apply IH].
  right. exists [c]. split; [done |]. simpl. unfold isBit in Hc. unfold isLetter, isUpper, isLower.
  apply orb_true_iff in Hc as [Hc | Hc]; apply N.eqb_eq in Hc; by subst.
Qed.

(** ** The pipeline as a whole *)

Lemma tokenize_None exp :
  tokenize exp = None <-> forallb (fun c => negb (tokenizable c)) (normalize exp) = true.
Proof.
  pose proof (matchAll_concat (normalize exp) 0) as Hcat. rewrite drop_0 in Hcat.
  pose proof (matchAll_shapes (normalize exp) 0) as Hsh.
  unfold tokenize. destruct (matchAll 0 (normalize exp)) as [|t ts].
  - split; [intros _ | done]. simpl in Hcat.
    induction (normalize exp) as [|c s IH]; simpl in *; [done |].
    destruct (tokenizable c); [done |]. simpl. by apply IH.
  - split; [done |]. intros Hall. exfalso.
    simpl in Hsh. apply andb_true_iff in Hsh as [Ht _].
    destruct t as [|c t]; [done |].
    assert (In c (List.filter tokenizable (normalize exp))) as Hin.
    { rewrite <- Hcat. simpl. by left. }
    apply filter_In in Hin as [Hin Hc].
    rewrite forallb_forall in Hall. specialize (Hall c Hin). by rewrite Hc in Hall.
Qed.

Lemma newExpression_full value tokens (h : store) :
  tokenize value = Some tokens ->
  exists r h',
    newExpression value h = Ret (r, h')
    /\ length (outputsOf r) = (2 ^ length (variablesOf tokens))%nat
    /\ forallb outputDigit (outputsOf r) = true
    /\ karnaughOf r = karnaughRows (outputsOf r) (variablesOf tokens)
    /\ truthOf r = truthRows (getInputs (length (variablesOf tokens))) (outputsOf r)
                             (variablesOf tokens ++ [VStr (lit "Q")]).
Proof.
  intros Htok. unfold newExpression. rewrite Htok.
  fold (variablesOf tokens). set (vars := variablesOf tokens).
  rewrite (bind_Ret _ _ _ _ _ (new_Ret _ _)).
  destruct (convertToPostfix_Ret tokens) as [postfix Hpost].
  rewrite (bind_Ret _ _ _ _ _ (lift_Ret _ _ _ Hpost)).
  rewrite (bind_Ret _ _ _ _ _ (new_Ret _ _)).
  set (h2 := (h ++ [vars]) ++ [map VStr postfix]).
  assert (h2 !! length h = Some vars) as Hvars.
  { apply lookup_app_l_Some. by apply list_lookup_middle. }
  assert (h2 !! length (h ++ [vars]) = Some (map VStr postfix)) as Hexp.
  { by apply list_lookup_middle. }
  rewrite (bind_Ret _ _ _ _ _ (read_Ret _ _ _ Hvars)).
  destruct (getOutputs_digits (getInputs (length vars)) h2 _ _ Hexp (getInputs_letterless _))
    as (outputs & copies & Hget & Hlen & Hdig).
  rewrite (bind_Ret _ _ _ _ _ Hget).
  assert ((h2 ++ copies) !! length (h ++ [vars]) = Some (map VStr postfix)) as Hexp'
    by by apply lookup_app_l_Some.
  destruct (createCircuit_Ret _ _ _ Hexp') as (calls & a' & Hcirc).
  rewrite (bind_Ret _ _ _ _ _ Hcirc).
  assert (<[length (h ++ [vars]) := a']> (h2 ++ copies) !! length h = Some vars) as Hvars'.
  { rewrite list_lookup_insert_ne; [by apply lookup_app_l_Some |].
    rewrite length_app. simpl. lia. }
  rewrite (bind_Ret _ _ _ _ _ (createKarnaughMap_Ret _ _ _ _ Hvars')).
  rewrite (bind_Ret _ _ _ _ _ (createTruthTable_Ret _ _ _ _ _ Hvars')).
  eexists _, _. split; [reflexivity |]. simpl. repeat split; [| done].
  by rewrite Hlen, getInputs_length.
Qed.

(** X5. [newExpression] has one way to fail: when the normalized text has
    no code unit the tokenizer can match (the empty text, or only digits 2
    to 9 and underscores), [match] returns [null] and reading
    [tokens.filter] throws a TypeError. For every other text it runs to
    the end. *)
Theorem newExpression_outcomes (value : str) (h : store) :
  if forallb (fun c => negb (tokenizable c)) (normalize value)
  then newExpression value h = Err TypeError
  else exists r h', newExpression value h = Ret (r, h').
Proof.
  destruct (forallb _ (normalize value)) eqn:E.
  - apply tokenize_None in E. unfold newExpression. by rewrite E.
  - destruct (tokenize value) as [tokens|] eqn:Htok.
    + destruct (newExpression_full value tokens h Htok) as (r & h' & H & _). by exists r, h'.
    + apply tokenize_None in Htok. congruence.
Qed.

(** X6. When [newExpression] runs, the output column has 2^n entries, n
    being the number of distinct variable names, and every entry is '0',
    '1' or [undefined]; the truth table has one heading row and 2^n
    rows. *)
Theorem newExpression_output_column value tokens (h : store) :
  tokenize value = Some tokens ->
  exists r h',
    newExpression value h = Ret (r, h')
    /\ length (outputsOf r) = (2 ^ length (variablesOf tokens))%nat
    /\ forallb outputDigit (outputsOf r) = true
    /\ length (truthOf r) = S (2 ^ length (variablesOf tokens)).
Proof.
  intros Htok.
  destruct (newExpression_full value tokens h Htok) as (r & h' & H & Hlen & Hdig & _ & Htt).
  exists r, h'. repeat split; try done.
  rewrite Htt. unfold truthRows. simpl. by rewrite length_imap, getInputs_length.
Qed.

Lemma newExpression_output_column_witness :
  exists r h',
    newExpression (lit "A.(B+C)") [] = Ret (r, h')
    /\ length (outputsOf r)
       = (2 ^ length (variablesOf [lit "A"; [c_and]; lit "("; lit "B"; [c_or]; lit "C"; lit ")"]))%nat
    /\ forallb outputDigit (outputsOf r) = true
    /\ length (truthOf r)
       = S (2 ^ length (variablesOf [lit "A"; [c_and]; lit "("; lit "B"; [c_or]; lit "C"; lit ")"])).
Proof.
  apply (newExpression_output_column (lit "A.(B+C)")
           [lit "A"; [c_and]; lit "("; lit "B"; [c_or]; lit "C"; lit ")"] []).
  reflexivity.
Defined.

(** ** The converter *)

Lemma popToParen_spec rstack : forall postfix,
  exists popped rest,
    popToParen postfix rstack = (postfix ++ popped, rest)
    /\ (rstack = popped ++ rest \/ rstack = popped ++ lit "(" :: rest).
Proof.
  induction rstack as [|top rstack IH]; intros postfix; simpl.
  - exists [], []. rewrite app_nil_r. by split; [| left].
  - destruct (str_eqb top (lit "(")) eqn:E.
    + apply str_eqb_eq in E. subst top. exists [], rstack. rewrite app_nil_r.
      by split; [| right].
    + destruct (IH (postfix ++ [top])) as (popped & rest & -> & Hsplit).
      exists (top :: popped), rest. rewrite <- app_assoc. split; [done |].
      destruct Hsplit as [-> | ->]; [by left | by right].
Qed.

Lemma filter_stacked l : Forall stacked l -> List.filter alphaNum l = [].
Proof. induction 1 as [|t l [Ht _] _ IH]; simpl; [done |]. by rewrite Ht. Qed.

Lemma convertStep_length postfix stack token postfix' stack' :
  convertStep (postfix, stack) token = Ret (postfix', stack') ->
  (length postfix' + length stack' <= length postfix + length stack + 1)%nat.
Proof.
  unfold convertStep. rewrite loop_test_false. intros Hstep.
  destruct (alphaNum token).
  { injection Hstep as <- <-. rewrite length_app. simpl. lia. }
  destruct (str_eqb token (lit "(")).
  { injection Hstep as <- <-. rewrite length_app. simpl. lia. }
  destruct (str_eqb token (lit ")")).
  { destruct (popToParen_spec (rev stack) postfix) as (popped & rest & Hpop & Hsplit).
    rewrite Hpop in Hstep. injection Hstep as <- <-.
    assert (length popped + length rest <= length stack)%nat.
    { rewrite <- (length_rev stack).
      destruct Hsplit as [-> | ->]; rewrite length_app; simpl; lia. }
    rewrite length_app, length_rev. lia. }
  assert (Ret (postfix, stack ++ [token]) = Ret (postfix', stack')) as Hpush
    by (by destruct (length stack =? 0)%nat).
  injection Hpush as <- <-. rewrite length_app. simpl. lia.
Qed.

Lemma convertLoop_length infix : forall postfix stack postfix' stack',
  convertLoop (postfix, stack) infix = Ret (postfix', stack') ->
  (length postfix' + length stack' <= length postfix + length stack + length infix)%nat.
Proof.
  induction infix as [|token infix IH]; intros postfix stack postfix' stack' Hloop.
  - injection Hloop as <- <-. simpl. lia.
  - cbn [convertLoop] in Hloop.
    destruct (convertStep (postfix, stack) token) as [[p1 s1]|] eqn:Hstep; [| done].
    simpl in Hloop. apply convertStep_length in Hstep. apply IH in Hloop. simpl. lia.
Qed.

(** What one step of the loop keeps. *)
Lemma convertStep_keeps postfix stack token postfix' stack' :
  convertStep (postfix, stack) token = Ret (postfix', stack') ->
  Forall stacked stack -> ~ In (lit ")") postfix ->
  Forall stacked stack' /\ ~ In (lit ")") postfix'
  /\ List.filter alphaNum postfix' = List.filter alphaNum (postfix ++ [token])
  /\ (forall t, In t (postfix' ++ stack') -> In t (postfix ++ stack ++ [token])).
Proof.
  unfold convertStep. rewrite loop_test_false. intros Hstep Hst Hpf.
  destruct (alphaNum token) eqn:Ea.
  { injection Hstep as <- <-. split; [done |]. split; [| split; [done |]].
    - rewrite in_app_iff. intros [H | [H | []]]; [done |]. by rewrite H in Ea.
    - intros t. rewrite !in_app_iff. simpl. tauto. }
  assert (List.filter alphaNum (postfix ++ [token]) = List.filter alphaNum postfix) as Hf.
  { rewrite List.filter_app. simpl. rewrite Ea. apply app_nil_r. }
  assert (forall t, In t (postfix ++ stack ++ [token]) -> In t (postfix ++ stack ++ [token])) as Hid by done.
  destruct (str_eqb token (lit "(")) eqn:Eo.
  { injection Hstep as <- <-. apply str_eqb_eq in Eo. subst token.
    split; [| split; [done | split; [done |]]].
    - apply Forall_app. split; [done |]. by repeat constructor.
    - intros t. rewrite !in_app_iff. tauto. }
  destruct (str_eqb token (lit ")")) eqn:Ec.
  { destruct (popToParen_spec (rev stack) postfix) as (popped & rest & Hpop & Hsplit).
    rewrite Hpop in Hstep. injection Hstep as <- <-.
    assert (Forall stacked (popped ++ rest)) as Hall.
    { apply Forall_rev in Hst.
      destruct Hsplit as [Hs | Hs]; rewrite Hs in Hst; [done |].
      apply Forall_app in Hst as [H1 H2]. apply Forall_cons in H2 as [_ H2].
      by apply Forall_app. }
    apply Forall_app in Hall as [Hpopped Hrest].
    split; [by apply Forall_rev |]. split; [| split].
    - rewrite in_app_iff. intros [H | H]; [done |].
      rewrite Forall_forall in Hpopped. apply list_elem_of_In in H.
      by destruct (Hpopped _ H).
    - rewrite Hf, List.filter_app, (filter_stacked popped Hpopped). apply app_nil_r.
    - intros t. rewrite !in_app_iff, <- in_rev. intros Ht.
      assert (In t postfix \/ In t (rev stack)) as [H | H]; [| tauto |].
      + destruct Hsplit as [-> | ->]; rewrite in_app_iff; simpl; tauto.
      + apply in_rev in H. tauto. }
  assert (stacked token) as Htok.
  { split; [done |]. intros ->. by rewrite str_eqb_refl in Ec. }
  assert (Ret (postfix, stack ++ [token]) = Ret (postfix', stack')) as Hpush
    by (by destruct (length stack =? 0)%nat).
  injection Hpush as <- <-. split; [| split; [done | split; [done | done]]].
  apply Forall_app. split; [done |]. constructor; [exact Htok | constructor].
Qed.

Lemma convertLoop_keeps infix : forall postfix stack postfix' stack',
  convertLoop (postfix, stack) infix = Ret (postfix', stack') ->
  Forall stacked stack -> ~ In (lit ")") postfix ->
  Forall stacked stack' /\ ~ In (lit ")") postfix'
  /\ List.filter alphaNum postfix' = List.filter alphaNum (postfix ++ infix)
  /\ (forall t, In t (postfix' ++ stack') -> In t (postfix ++ stack ++ infix)).
Proof.
  induction infix as [|token infix IH]; intros postfix stack postfix' stack' Hloop Hst Hpf.
  - injection Hloop as <- <-. rewrite !app_nil_r. done.
  - cbn [convertLoop] in Hloop.
    destruct (convertStep (postfix, stack) token) as [[p1 s1]|] eqn:Hstep; [| done].
    simpl in Hloop.
    destruct (convertStep_keeps _ _ _ _ _ Hstep Hst Hpf) as (Hst1 & Hpf1 & Hf1 & Hin1).
    destruct (IH _ _ _ _ Hloop Hst1 Hpf1) as (Hst2 & Hpf2 & Hf2 & Hin2).
    split; [done |]. split; [done |]. split.
    + rewrite Hf2, List.filter_app, Hf1, <- List.filter_app, <- app_assoc. done.
    + intros t Ht. apply Hin2 in Ht. rewrite !in_app_iff in Ht |- *.
      destruct Ht as [Ht | [Ht | Ht]]; [| | simpl; tauto].
      * assert (In t (p1 ++ s1)) as H by (rewrite in_app_iff; tauto).
        apply Hin1 in H. rewrite !in_app_iff in H. simpl in *. tauto.
      * assert (In t (p1 ++ s1)) as H by (rewrite in_app_iff; tauto).
        apply Hin1 in H. rewrite !in_app_iff in H. simpl in *. tauto.
Qed.

(** X7. [convertToPostfix] returns a sequence in which the operands (the
    tokens with a letter or a digit 0/1) are those of the input, in the
    same order; it never puts a [')'] into the output, every token of the
    output is a token of the input, and the output is no longer than the
    input. *)
Theorem convertToPostfix_keeps_operands (infix : list str) :
  exists postfix,
    convertToPostfix infix = Ret postfix
    /\ List.filter alphaNum postfix = List.filter alphaNum infix
    /\ ~ In (lit ")") postfix
    /\ (forall t, In t postfix -> In t infix)
    /\ (length postfix <= length infix)%nat.
Proof.
  destruct (convertLoop_returns infix ([], [])) as [[postfix stack] Hloop].
  pose proof (convertLoop_length _ _ _ _ _ Hloop) as Hlen.
  destruct (convertLoop_keeps infix [] [] postfix stack Hloop) as (Hst & Hpf & Hf & Hin);
    [done | by intros [] |].
  exists (postfix ++ rev stack). unfold convertToPostfix. rewrite Hloop. simpl.
  split; [done |]. split; [| split; [| split]].
  - rewrite List.filter_app, Hf, (filter_stacked (rev stack)); [apply app_nil_r | by apply Forall_rev].
  - rewrite in_app_iff, <- in_rev. intros [H | H]; [done |].
    rewrite Forall_forall in Hst. apply list_elem_of_In in H. by destruct (Hst _ H).
  - intros t Ht. apply (Hin t). rewrite in_app_iff in Ht |- *. rewrite <- in_rev in Ht. done.
  - rewrite length_app, length_rev. simpl in Hlen. lia.
Qed.

Lemma convertLoop_flat infix : forall postfix stack,
  forallb (fun t => negb (isParen t)) infix = true ->
  convertLoop (postfix, stack) infix
  = Ret (postfix ++ List.filter alphaNum infix,
         stack ++ List.filter (fun t => negb (alphaNum t)) infix).
Proof.
  induction infix as [|token infix IH]; intros postfix stack Hflat.
  - simpl. by rewrite !app_nil_r.
  - simpl in Hflat. apply andb_true_iff in Hflat as [Htok Hflat].
    unfold isParen in Htok. apply negb_true_iff, orb_false_iff in Htok as [Eo Ec].
    cbn [convertLoop]. unfold convertStep. rewrite loop_test_false, Eo, Ec.
    simpl. destruct (alphaNum token) eqn:Ea; simpl.
    + rewrite IH by done. by rewrite <- app_assoc.
    + destruct (length stack =? 0)%nat; simpl; rewrite IH by done; by rewrite <- app_assoc.
Qed.

(** X8. On a token sequence without parentheses [convertToPostfix]
    returns all the operands in their order, followed by all the other
    tokens (the operators) in the reverse of their order. *)
Theorem convertToPostfix_without_parentheses (infix : list str) :
  forallb (fun t => negb (isParen t)) infix = true ->
  convertToPostfix infix
  = Ret (List.filter alphaNum infix ++ rev (List.filter (fun t => negb (alphaNum t)) infix)).
Proof.
  intros Hflat. unfold convertToPostfix. by rewrite convertLoop_flat.
Qed.

Lemma convertToPostfix_without_parentheses_witness :
  convertToPostfix [lit "A"; [c_imply]; [c_not]; lit "B"; [c_or]; lit "1"]
  = Ret (List.filter alphaNum [lit "A"; [c_imply]; [c_not]; lit "B"; [c_or]; lit "1"]
         ++ rev (List.filter (fun t => negb (alphaNum t))
                   [lit "A"; [c_imply]; [c_not]; lit "B"; [c_or]; lit "1"])).
Proof.
  apply (convertToPostfix_without_parentheses
           [lit "A"; [c_imply]; [c_not]; lit "B"; [c_or]; lit "1"]).
  reflexivity.
Defined.

(** ** Substitution when no variable repeats *)

Lemma distinct_length seen l : (length (distinct seen l) <= length l)%nat.
Proof.
  revert seen. induction l as [|x l IH]; intros seen; simpl; [lia |].
  destruct (existsb (str_eqb x) seen); simpl; [specialize (IH seen) | specialize (IH (x :: seen))]; lia.
Qed.

Lemma distinct_cons seen x l :
  distinct seen (x :: l) = x :: l ->
  existsb (str_eqb x) seen = false /\ distinct (x :: seen) l = l.
Proof.
  simpl. destruct (existsb (str_eqb x) seen).
  - intros H. apply (f_equal length) in H. pose proof (distinct_length seen l). simpl in H. lia.
  - by intros [= ->].
Qed.

Lemma distinct_fresh l : forall seen x,
  distinct seen l = l -> In x l -> existsb (str_eqb x) seen = false.
Proof.
  induction l as [|y l IH]; intros seen x Hd Hin; [done |].
  apply distinct_cons in Hd as [Hy Hd]. destruct Hin as [-> | Hin]; [done |].
  specialize (IH (y :: seen) x Hd Hin). simpl in IH. by apply orb_false_iff in IH as [_ ?].
Qed.

Lemma strRegex_alphaNum t : strRegex t = true -> alphaNum t = true.
Proof.
  unfold strRegex, alphaNum. induction t as [|c t IH]; simpl; [done |].
  destruct (isLetter c); simpl; [done |]. intros H. rewrite (IH H). apply orb_true_r.
Qed.

Lemma filter_strRegex_alphaNum l :
  List.filter strRegex (List.filter alphaNum l) = List.filter strRegex l.
Proof.
  induction l as [|t l IH]; simpl; [done |].
  destruct (alphaNum t) eqn:Ea; simpl.
  - destruct (strRegex t); by rewrite IH.
  - destruct (strRegex t) eqn:Es; [| done]. apply strRegex_alphaNum in Es. congruence.
Qed.

Lemma substitute_positions input l : forall seen n,
  distinct seen (List.filter strRegex l) = List.filter strRegex l ->
  substitute input n (map VStr l)
  = map (fun t => if strRegex t
                  then index input (n + 1 + position t (List.filter strRegex l))
                  else VStr t) l.
Proof.
  induction l as [|t l IH]; intros seen n Hd; [done |].
  cbn [map substitute ToString List.filter]. cbn [List.filter] in Hd.
  destruct (strRegex t) eqn:Es.
  - apply distinct_cons in Hd as [Hfresh Hd].
    cbn [position]. rewrite str_eqb_refl, Z.add_0_r. f_equal.
    rewrite (IH (t :: seen) (n + 1)%Z Hd). apply map_ext_in. intros t' Hin.
    destruct (strRegex t') eqn:Es'; [| done].
    assert (In t' (List.filter strRegex l)) as Hin' by (apply filter_In; done).
    pose proof (distinct_fresh _ _ t' Hd Hin') as Hne. simpl in Hne.
    apply orb_false_iff in Hne as [Hne _]. rewrite Hne. f_equal. lia.
  - f_equal. by apply (IH seen).
Qed.

(** X9. When no variable name occurs twice in the expression,
    [getOutputs] gives every variable the element of the assignment at the
    variable's index in the list of variables: the array it builds for an
    assignment [input] is the postfix sequence with each variable [t]
    replaced by [input[position of t]] and every other token kept. *)
Theorem substitution_by_position (infix : list str) (input : list value) :
  distinct [] (List.filter strRegex infix) = List.filter strRegex infix ->
  exists postfix,
    convertToPostfix infix = Ret postfix
    /\ substitute input (-1) (map VStr postfix)
       = map (fun t => if strRegex t
                       then index input (position t (distinct [] (List.filter strRegex infix)))
                       else VStr t) postfix.
Proof.
  intros Hd. destruct (convertToPostfix_keeps_operands infix) as (postfix & Hpost & Hf & _).
  exists postfix. split; [done |].
  assert (List.filter strRegex postfix = List.filter strRegex infix) as Hvars.
  { by rewrite <- (filter_strRegex_alphaNum postfix), Hf, filter_strRegex_alphaNum. }
  rewrite (substitute_positions input postfix [] (-1)%Z) by (by rewrite Hvars).
  rewrite Hd, Hvars. apply map_ext. intros t. destruct (strRegex t); [| done]. f_equal; lia.
Qed.

Lemma substitution_by_position_witness :
  exists postfix,
    convertToPostfix [lit "B"; [c_imply]; lit "("; lit "A"; [c_or]; lit "C"; lit ")"] = Ret postfix
    /\ substitute [VStr (lit "1"); VStr (lit "0"); VStr (lit "1")] (-1) (map VStr postfix)
       = map (fun t => if strRegex t
                       then index [VStr (lit "1"); VStr (lit "0"); VStr (lit "1")]
                              (position t (distinct [] (List.filter strRegex
                                 [lit "B"; [c_imply]; lit "("; lit "A"; [c_or]; lit "C"; lit ")"])))
                       else VStr t) postfix.
Proof.
  apply (substitution_by_position
           [lit "B"; [c_imply]; lit "("; lit "A"; [c_or]; lit "C"; lit ")"]
           [VStr (lit "1"); VStr (lit "0"); VStr (lit "1")]).
  reflexivity.
Defined.

(** ** [evaluate] on well-formed sequences *)

Lemma symbol_operation o :
  inherited [symbol o] = false
  /\ get operations1 [symbol o] = None
  /\ exists f, get operations2 [symbol o] = Some f
       /\ forall a b, f (VBool a) (VBool b) = VBool (truth o a b).
Proof.
  destruct o; (split; [reflexivity |]; split; [reflexivity |]);
    eexists; (split; [reflexivity |]); by intros [|] [|].
Qed.

Lemma pop_last (h : store) r pre x :
  h !! r = Some (pre ++ [x]) -> pop r h = Ret (x, <[r := pre]> h).
Proof. intros Hr. rewrite (pop_Ret _ _ _ Hr). by rewrite last_last, removelast_last. Qed.

Lemma evaluate_fuel_expr e : forall n pre (h : store) r,
  constants e = true ->
  h !! r = Some (pre ++ postfixOf e) ->
  (length (postfixOf e) <= n)%nat ->
  evaluate_fuel n r h = Ret (VBool (denoteExchanged e), <[r := pre]> h).
Proof.
  induction e as [t | e IH | o l IHl rr IHr]; intros n pre h r Hc Hr Hn;
    (destruct n as [|n]; [simpl in Hn; rewrite ?length_app in Hn; simpl in Hn; lia |]);
    cbn [evaluate_fuel postfixOf] in *.
  - rewrite (bind_Ret _ _ _ _ _ (pop_last _ _ _ _ Hr)).
    simpl in Hc. apply orb_true_iff in Hc as [Hc | Hc]; apply str_eqb_eq in Hc; subst t; reflexivity.
  - rewrite app_assoc in Hr. rewrite (bind_Ret _ _ _ _ _ (pop_last _ _ _ _ Hr)).
    change (inherited (ToString (VStr [c_not]))) with false.
    change (get operations1 (ToString (VStr [c_not]))) with (Some (fun a => js_not a)).
    cbv beta iota zeta.
    rewrite length_app in Hn. simpl in Hn.
    rewrite (bind_Ret _ _ _ _ _ (IH n pre _ r Hc (lookup_insert_same _ _ _ _ Hr) ltac:(lia))).
    by rewrite list_insert_insert_eq.
  - simpl in Hc. apply andb_true_iff in Hc as [Hcl Hcr].
    rewrite !app_assoc in Hr. rewrite (bind_Ret _ _ _ _ _ (pop_last _ _ _ _ Hr)).
    destruct (symbol_operation o) as (Hi & H1 & f & H2 & Hf).
    cbn [ToString]. rewrite Hi, H1, H2.
    rewrite !length_app in Hn. simpl in Hn.
    rewrite (bind_Ret _ _ _ _ _
               (IHr n (pre ++ postfixOf l) _ r Hcr (lookup_insert_same _ _ _ _ Hr) ltac:(lia))).
    rewrite list_insert_insert_eq.
    rewrite (bind_Ret _ _ _ _ _
               (IHl n pre _ r Hcl (lookup_insert_same _ _ _ _ Hr) ltac:(lia))).
    rewrite list_insert_insert_eq. unfold ret. by rewrite Hf.
Qed.

Lemma truth_commutes o a b :
  match o with OpImply => false | _ => true end = true -> truth o a b = truth o b a.
Proof. by destruct o, a, b. Qed.

Lemma denoteExchanged_denote e : withoutImply e = true -> denoteExchanged e = denote e.
Proof.
  induction e as [t | e IH | o l IHl r IHr]; simpl; intros H; [done | by rewrite IH |].
  apply andb_true_iff in H as [H Hr]. apply andb_true_iff in H as [Ho Hl].
  rewrite IHl, IHr by done. by apply truth_commutes.
Qed.

(** X10. Given the postfix sequence of an expression over the constants
    0 and 1 (whatever comes before it in the array), [evaluate] removes
    exactly the tokens of that expression, leaves what was before them,
    and returns the boolean the expression has when the two operands of
    every binary operator are exchanged; when the expression has no
    implication, that is its truth value. *)
Theorem evaluate_expression (e : expr) (pre : list value) (h : store) (r : ref) :
  constants e = true ->
  h !! r = Some (pre ++ postfixOf e) ->
  evaluate r h = Ret (VBool (denoteExchanged e), <[r := pre]> h)
  /\ (if withoutImply e then denoteExchanged e = denote e else True).
Proof.
  intros Hc Hr. split.
  2:{ destruct (withoutImply e) eqn:E; [by apply denoteExchanged_denote | done]. }
  unfold evaluate. rewrite (bind_Ret _ _ _ _ _ (read_Ret _ _ _ Hr)).
  apply evaluate_fuel_expr; [done | done |]. rewrite length_app. lia.
Qed.

Lemma evaluate_expression_witness :
  evaluate 0 [[VStr (lit "("); VStr (lit "1"); VStr (lit "0"); VStr [c_not]; VStr [c_xor]]]
  = Ret (VBool (denoteExchanged (Bin OpXor (Leaf (lit "1")) (Neg (Leaf (lit "0"))))),
         <[0%nat := [VStr (lit "(")]]>
           [[VStr (lit "("); VStr (lit "1"); VStr (lit "0"); VStr [c_not]; VStr [c_xor]]])
  /\ (if withoutImply (Bin OpXor (Leaf (lit "1")) (Neg (Leaf (lit "0"))))
      then denoteExchanged (Bin OpXor (Leaf (lit "1")) (Neg (Leaf (lit "0"))))
           = denote (Bin OpXor (Leaf (lit "1")) (Neg (Leaf (lit "0"))))
      else True).
Proof.
  apply (evaluate_expression (Bin OpXor (Leaf (lit "1")) (Neg (Leaf (lit "0"))))
           [VStr (lit "(")]
           [[VStr (lit "("); VStr (lit "1"); VStr (lit "0"); VStr [c_not]; VStr [c_xor]]] 0).
  - reflexivity.
  - reflexivity.
Defined.

(** ** [createCircuit] on well-formed sequences *)












Lemma edgeEnds_length calls : length (edgeEnds calls) = edgeCalls calls.
Proof.
  unfold edgeCalls. induction calls as [|c calls IH]; [done |].
  destruct c; simpl; by rewrite IH.
Qed.















#[local] Open Scope Z_scope.

(** ** [gray] on all integers *)

Lemma ToInt32_range z : - 2 ^ 31 <= ToInt32 z < 2 ^ 31.
Proof.
  unfold ToInt32. pose proof (Z.mod_pos_bound z (2 ^ 32) ltac:(lia)).
  destruct (Z.ltb_spec (z mod 2 ^ 32) (2 ^ 31)); lia.
Qed.

Lemma ToInt32_period z : ToInt32 (z + 2 ^ 32) = ToInt32 z.
Proof.
  unfold ToInt32. replace (z + 2 ^ 32) with (z + 1 * 2 ^ 32) by lia.
  by rewrite Z_mod_plus_full.
Qed.

Lemma ToInt32_lnot z : ToInt32 (- 1 - z) = - 1 - ToInt32 z.
Proof.
  unfold ToInt32.
  assert ((- 1 - z) mod 2 ^ 32 = 2 ^ 32 - 1 - z mod 2 ^ 32) as ->.
  { symmetry. apply (Z.mod_unique _ _ (- 1 - z / 2 ^ 32)).
    - pose proof (Z.mod_pos_bound z (2 ^ 32) ltac:(lia)). lia.
    - pose proof (Z.div_mod z (2 ^ 32) ltac:(lia)). lia. }
  pose proof (Z.mod_pos_bound z (2 ^ 32) ltac:(lia)).
  destruct (Z.ltb_spec (z mod 2 ^ 32) (2 ^ 31)),
    (Z.ltb_spec (2 ^ 32 - 1 - z mod 2 ^ 32) (2 ^ 31)); lia.
Qed.

Lemma reflected_lnot y : Z.lxor (- 1 - y) (Z.shiftr (- 1 - y) 1) = reflected y.
Proof.
  replace (- 1 - y) with (Z.lnot y) by (unfold Z.lnot; lia).
  unfold reflected. apply Z.bits_inj'. intros n Hn.
  rewrite !Z.lxor_spec, !Z.shiftr_spec, !Z.lnot_spec by lia.
  by destruct (Z.testbit y n), (Z.testbit y (n + 1)).
Qed.

(** On a 32-bit integer [gray] is the reflected code of the integer when
    it is not negative and of its complement when it is. *)
Lemma gray_int32 x :
  - 2 ^ 31 <= x < 2 ^ 31 ->
  gray x = reflected (if 0 <=? x then x else - 1 - x).
Proof.
  intros Hx. unfold gray.
  assert (ToInt32 x = x) as ->.
  { unfold ToInt32. destruct (Z.leb_spec 0 x).
    - rewrite Z.mod_small by lia. destruct (Z.ltb_spec x (2 ^ 31)); lia.
    - assert (x mod 2 ^ 32 = x + 2 ^ 32) as ->.
      { symmetry. apply (Z.mod_unique _ _ (- 1)); lia. }
      destruct (Z.ltb_spec (x + 2 ^ 32) (2 ^ 31)); lia. }
  destruct (Z.leb_spec 0 x).
  - apply ToInt32_small. apply (reflected_range x 31); lia.
  - pose proof (reflected_lnot (- 1 - x)) as H'.
    replace (- 1 - (- 1 - x)) with x in H' by lia. rewrite H'.
    apply ToInt32_small. apply (reflected_range (- 1 - x) 31); lia.
Qed.

Lemma gray_ToInt32 i : gray i = gray (ToInt32 i).
Proof.
  unfold gray. assert (ToInt32 (ToInt32 i) = ToInt32 i) as ->; [| done].
  pose proof (ToInt32_range i) as H. generalize dependent (ToInt32 i). intros x Hx.
  unfold ToInt32. destruct (Z.leb_spec 0 x).
  - rewrite Z.mod_small by lia. destruct (Z.ltb_spec x (2 ^ 31)); lia.
  - assert (x mod 2 ^ 32 = x + 2 ^ 32) as ->.
    { symmetry. apply (Z.mod_unique _ _ (- 1)); lia. }
    destruct (Z.ltb_spec (x + 2 ^ 32) (2 ^ 31)); lia.
Qed.

(** X12. For every integer [i], [gray i] lies between 0 and 2^31 - 1: it
    is never negative, so its binary text never starts with a minus sign.
    [gray] has the period 2^32 and gives an integer and its complement
    [-1 - i] the same code. *)
Theorem gray_range_and_symmetry (i : Z) :
  0 <= gray i < 2 ^ 31
  /\ gray (i + 2 ^ 32) = gray i
  /\ gray (- 1 - i) = gray i.
Proof.
  split; [| split].
  - rewrite gray_ToInt32, (gray_int32 _ (ToInt32_range i)).
    pose proof (ToInt32_range i).
    destruct (Z.leb_spec 0 (ToInt32 i)); apply (reflected_range _ 31); lia.
  - by rewrite (gray_ToInt32 (i + 2 ^ 32)), ToInt32_period, <- gray_ToInt32.
  - rewrite (gray_ToInt32 (- 1 - i)), ToInt32_lnot, (gray_ToInt32 i).
    pose proof (ToInt32_range i) as H.
    rewrite !gray_int32 by lia.
    destruct (Z.leb_spec 0 (ToInt32 i)), (Z.leb_spec 0 (- 1 - ToInt32 i)); try lia; f_equal; lia.
Qed.

(** X13. For every k up to 31, [gray] is a one-to-one map of the integers
    from 0 to 2^k - 1 onto themselves: [unreflect k] undoes it, in both
    directions. *)
Theorem gray_permutes (k : nat) (a : Z) :
  (k <= 31)%nat ->
  0 <= a < 2 ^ Z.of_nat k ->
  0 <= gray a < 2 ^ Z.of_nat k
  /\ 0 <= unreflect k a < 2 ^ Z.of_nat k
  /\ gray (unreflect k a) = a
  /\ unreflect k (gray a) = a.
Proof.
  intros Hk Ha. pose proof (pow2_le_31 (Z.of_nat k) ltac:(lia)) as Hpow.
  pose proof (unreflect_range k a (Z.of_nat k) ltac:(lia) Ha) as Hu.
  pose proof (reflected_range a (Z.of_nat k) ltac:(lia) Ha) as Hg.
  rewrite !gray_reflected by lia.
  split; [done |]. split; [done |]. split; [by apply reflected_unreflect |].
  pose proof (unreflect_range k (reflected a) (Z.of_nat k) ltac:(lia) Hg) as Hug.
  apply reflected_inj; [lia | lia |]. by apply reflected_unreflect.
Qed.

Lemma gray_permutes_witness :
  0 <= gray 5 < 2 ^ Z.of_nat 3
  /\ 0 <= unreflect 3 5 < 2 ^ Z.of_nat 3
  /\ gray (unreflect 3 5) = 5
  /\ unreflect 3 (gray 5) = 5.
Proof. apply (gray_permutes 3 5); simpl; lia. Defined.

(** ** The headings of the Karnaugh map *)














